(** * Next-move planner of the Game Creator server (app.py)

    A shallow embedding of [find_path] (breadth-first search over a tile
    grid) and of the [/api/ai-move] handler [get_ai_move], followed by the
    properties of the planner and of the handler. *)

From Stdlib Require Import Ascii.
From stdpp Require Import gmap strings list sorting.

#[local] Set Warnings "-register-all,-level-tolerance,-clear-no-such-hyp".

Open Scope Z_scope.

(** ** Python values and exceptions *)

(** The values [request.get_json()] can hand to the handler.  JSON numbers
    with a fractional part (Python floats) are outside this model. *)
Inductive pyval :=
| PNone
| PBool (b : bool)
| PInt (z : Z)
| PStr (s : string)
| PList (l : list pyval)
| PDict (d : list (string * pyval)).

(** The exceptions the modelled code can raise. *)
Inductive exn := KeyError | TypeError | ZeroDivisionError | IndexError.

Inductive result (A : Type) :=
| Ok (a : A)
| Raise (e : exn).
Arguments Ok {A} a.
Arguments Raise {A} e.

(** Sequencing of statements that may raise: the first exception wins. *)
#[global] Instance result_bind : MBind result := λ A B k m,
  match m with
  | Ok a => k a
  | Raise e => Raise e
  end.

(** ** Cells, grids and paths *)

(** A cell is a [(row, col)] tuple of Python integers. *)
Abbreviation cell := (Z * Z)%type (only parsing).
Abbreviation path := (list (Z * Z)) (only parsing).
(** [grid] is a list of rows; a value [0] is open space, anything else a wall. *)
Abbreviation grid := (list (list Z)) (only parsing).

Definition len {A} (l : list A) : Z := Z.of_nat (length l).

(** ** find_path *)

(** The literal list of [(dr, dc)] offsets of the [for] loop. *)
Definition directions : list (Z * Z) := [(0, 1); (0, -1); (1, 0); (-1, 0)].

(** The guard of the [if]:
    [0 <= nr < len(grid) and 0 <= nc < len(grid[0]) and grid[nr][nc] == 0
     and (nr, nc) not in seen], evaluated left to right with short-circuit.
    A row shorter than row 0 makes [grid[nr][nc]] raise. *)
Definition passable (g : grid) (seen : gset cell) (nr nc : Z) : result bool :=
  if negb ((0 <=? nr) && (nr <? len g)) then Ok false
  else match g !! 0%nat with
       | None => Raise IndexError
       | Some row0 =>
         if negb ((0 <=? nc) && (nc <? len row0)) then Ok false
         else match g !! Z.to_nat nr with
              | None => Raise IndexError
              | Some row =>
                match row !! Z.to_nat nc with
                | None => Raise IndexError
                | Some v =>
                  if negb (v =? 0) then Ok false
                  else Ok (bool_decide ((nr, nc) ∉ seen))
                end
              end
       end.

(** What one pass over the offsets leaves behind: an early [return], the
    updated [seen] and [queue], or an exception. *)
Inductive loop_result :=
| Return (new_path : path)
| Continue (seen : gset cell) (queue : list path)
| Throw (e : exn).

(** The [for dr, dc in ...] loop for the popped [path] ending in [(r, c)]. *)
Fixpoint explore (g : grid) (end_ : cell) (p : path) (r c : Z)
    (dirs : list (Z * Z)) (seen : gset cell) (queue : list path) : loop_result :=
  match dirs with
  | [] => Continue seen queue
  | (dr, dc) :: dirs' =>
    let nr := r + dr in
    let nc := c + dc in
    match passable g seen nr nc with
    | Raise e => Throw e
    | Ok false => explore g end_ p r c dirs' seen queue
    | Ok true =>
      let new_path := p ++ [(nr, nc)] in
      let seen' := seen ∪ {[(nr, nc)]} in
      if bool_decide ((nr, nc) = end_) then Return new_path
      else explore g end_ p r c dirs' seen' (queue ++ [new_path])
    end
  end.

(** Outcome of a search.  [Timeout] is the model's own: the [while] loop
    is run for a bounded number of iterations, and [find_path_total] below
    shows the bound is never reached. *)
Inductive outcome :=
| Found (p : path)
| NoPath
| Raised (e : exn)
| Timeout.

(** The [while queue:] loop, one iteration per unit of fuel. *)
Fixpoint bfs (fuel : nat) (g : grid) (end_ : cell) (dirs : list (Z * Z))
    (seen : gset cell) (queue : list path) : outcome :=
  match fuel with
  | O => Timeout
  | S fuel' =>
    match queue with
    | [] => NoPath
    | p :: rest =>
      match last p with
      | None => Raised IndexError
      | Some (r, c) =>
        match explore g end_ p r c dirs seen rest with
        | Return new_path => Found new_path
        | Throw e => Raised e
        | Continue seen' queue' => bfs fuel' g end_ dirs seen' queue'
        end
      end
    end
  end.

(** Iterations granted to the loop: twice the number of grid positions,
    plus two. *)
Definition budget (g : grid) : nat :=
  (2 * (length g * length (default [] (g !! 0%nat))) + 2)%nat.

Definition find_path_with (dirs : list (Z * Z)) (g : grid) (start end_ : cell)
    : outcome :=
  if bool_decide (start = end_) then Found [start]
  else bfs (budget g) g end_ dirs {[start]} [[start]].

Definition find_path : grid → cell → cell → outcome := find_path_with directions.

(** ** get_ai_move *)

(** [d[k]] on a parsed JSON object, held as its list of bindings. *)
Fixpoint dict_get (d : list (string * pyval)) (k : string) : option pyval :=
  match d with
  | [] => None
  | (k', v) :: d' => if String.eqb k' k then Some v else dict_get d' k
  end.

(** [v[k]] with a string key: only a dict accepts it. *)
Definition getitem (v : pyval) (k : string) : result pyval :=
  match v with
  | PDict d =>
    match dict_get d k with
    | Some x => Ok x
    | None => Raise KeyError
    end
  | _ => Raise TypeError
  end.

(** Python integers; [bool] is a subclass of [int]. *)
Definition as_int (v : pyval) : option Z :=
  match v with
  | PInt z => Some z
  | PBool b => Some (if b then 1 else 0)
  | _ => None
  end.

(** [a // b]: floor division, as [Z.div]. *)
Definition floordiv (a b : pyval) : result Z :=
  match as_int a, as_int b with
  | Some x, Some y => if y =? 0 then Raise ZeroDivisionError else Ok (x / y)
  | _, _ => Raise TypeError
  end.

(** [z * v] for the integer [z]; the handler multiplies only by
    [grid_size], which has served as a divisor by then. *)
Definition py_mul (z : Z) (v : pyval) : result Z :=
  match as_int v with
  | Some y => Ok (z * y)
  | None => Raise TypeError
  end.

(** The items a [for] loop draws from a value. *)
Definition py_iter (v : pyval) : result (list pyval) :=
  match v with
  | PList l => Ok l
  | PStr s => Ok ((λ a, PStr (String a EmptyString)) <$> String.list_ascii_of_string s)
  | PDict d => Ok ((λ kv, PStr kv.1) <$> d)
  | _ => Raise TypeError
  end.

(** [v == s] for a string literal [s]. *)
Definition is_str (v : pyval) (s : string) : bool :=
  match v with
  | PStr t => String.eqb t s
  | _ => false
  end.

(** Position addressed by index [i] in a list of length [n]: negative
    indices count from the end, anything else is out of range. *)
Definition py_index (n : nat) (i : Z) : option nat :=
  if (0 <=? i) && (i <? Z.of_nat n) then Some (Z.to_nat i)
  else if (- Z.of_nat n <=? i) && (i <? 0) then Some (Z.to_nat (Z.of_nat n + i))
  else None.

(** [grid[r][c] = 1]. *)
Definition mark (g : grid) (r c : Z) : result grid :=
  match py_index (length g) r with
  | None => Raise IndexError
  | Some i =>
    match g !! i with
    | None => Raise IndexError
    | Some row =>
      match py_index (length row) c with
      | None => Raise IndexError
      | Some j => Ok (<[i := <[j := 1]> row]> g)
      end
    end
  end.

(** The local variables the object loop updates. *)
Abbreviation locals := (list (list Z) * option (Z * Z) * option (Z * Z))%type (only parsing).

(** Body of [for obj in objects]. *)
Definition scan_object (grid_size obj : pyval) (st : locals) : result locals :=
  let '(g, player_pos, ai_pos) := st in
  y ← getitem obj "y";
  r ← floordiv y grid_size;
  x ← getitem obj "x";
  c ← floordiv x grid_size;
  ty ← getitem obj "type";
  if is_str ty "wall" || is_str ty "enemy" then
    g' ← mark g r c; Ok (g', player_pos, ai_pos)
  else if is_str ty "player" then Ok (g, Some (r, c), ai_pos)
  else if is_str ty "ai_enemy" then Ok (g, player_pos, Some (r, c))
  else Ok st.

Fixpoint scan_objects (grid_size : pyval) (objs : list pyval) (st : locals)
    : result locals :=
  match objs with
  | [] => Ok st
  | obj :: objs' =>
    st' ← scan_object grid_size obj st;
    scan_objects grid_size objs' st'
  end.

(** Lines 66-86: read the fields, allocate the grid, scan the objects. *)
Definition build (state : pyval) : result (pyval * locals) :=
  width ← getitem state "width";
  height ← getitem state "height";
  grid_size ← getitem state "grid_size";
  objects ← getitem state "objects";
  cols ← floordiv width grid_size;
  rows ← floordiv height grid_size;
  let g := replicate (Z.to_nat rows) (replicate (Z.to_nat cols) 0) in
  objs ← py_iter objects;
  st ← scan_objects grid_size objs (g, None, None);
  Ok (grid_size, st).

(** The JSON bodies the handler returns, with the HTTP code of the error
    ones.  [NoResponse] stands for a search cut off by the model's
    iteration bound; [get_ai_move_responds] shows it never comes out. *)
Inductive response :=
| Success (next_x next_y : Z)
| NoMove (next_x next_y : Z)
| Error (message : string) (code : Z)
| NoResponse.

(** The ["status"] field of a body. *)
Definition status (r : response) : string :=
  match r with
  | Success _ _ => "success"
  | NoMove _ _ => "no_move"
  | Error _ _ => "error"
  | NoResponse => ""
  end.

Definition missing_actor : response := Error "Player or AI not found" 400.
Definition internal_error : response := Error "Internal server error" 500.

(** Lines 88-108, with the call to [find_path] passed in as [planner]. *)
Definition respond (planner : grid → cell → cell → outcome)
    (grid_size : pyval) (st : locals) : result response :=
  let '(g, player_pos, ai_pos) := st in
  match player_pos, ai_pos with
  | Some player, Some ai =>
    let hold :=
      x ← py_mul ai.2 grid_size;
      y ← py_mul ai.1 grid_size;
      Ok (NoMove x y) in
    match planner g ai player with
    | Raised e => Raise e
    | Timeout => Ok NoResponse
    | NoPath => hold
    | Found p =>
      if 1 <? len p then
        match p !! 1%nat with
        | None => Raise IndexError
        | Some (next_r, next_c) =>
          x ← py_mul next_c grid_size;
          y ← py_mul next_r grid_size;
          Ok (Success x y)
        end
      else hold
    end
  | _, _ => Ok missing_actor
  end.

(** The handler: the [try] body, and the [except Exception] clause. *)
Definition get_ai_move_with (planner : grid → cell → cell → outcome)
    (state : pyval) : response :=
  match '(grid_size, st) ← build state; respond planner grid_size st with
  | Ok r => r
  | Raise _ => internal_error
  end.

Definition get_ai_move : pyval → response := get_ai_move_with find_path.

(** ** Requests of the documented shape *)

(** [{ "type": ..., "x": ..., "y": ... }] with integer coordinates. *)
Record world_object := WorldObject {
  obj_type : string;
  obj_x : Z;
  obj_y : Z
}.

(** [{ "grid_size": 32, "width": 640, "height": 480, "objects": [...] }]. *)
Record request := Request {
  req_width : Z;
  req_height : Z;
  req_grid_size : Z;
  req_objects : list world_object
}.

Definition encode_object (o : world_object) : pyval :=
  PDict [("type", PStr (obj_type o)); ("x", PInt (obj_x o)); ("y", PInt (obj_y o))].

Definition encode (q : request) : pyval :=
  PDict [("grid_size", PInt (req_grid_size q));
         ("width", PInt (req_width q));
         ("height", PInt (req_height q));
         ("objects", PList (encode_object <$> req_objects q))].

(** ** The grid graph *)

(** The value stored at a cell, when the position exists. *)
Definition cell_at (g : grid) (v : cell) : option Z :=
  g !! Z.to_nat v.1 ≫= λ row, row !! Z.to_nat v.2.

(** Number of columns as the planner measures it: [len(grid[0])]. *)
Definition width_of (g : grid) : Z := len (default [] (g !! 0%nat)).

(** A cell the planner may step on: inside the grid and holding [0]. *)
Definition is_open (g : grid) (v : cell) : Prop :=
  0 ≤ v.1 < len g ∧ 0 ≤ v.2 < width_of g ∧ cell_at g v = Some 0.

#[global] Instance is_open_dec g v : Decision (is_open g v).
Proof. unfold is_open. apply _. Defined.

(** One unit apart along exactly one axis. *)
Definition adjacent (a b : cell) : Prop :=
  (a.1 = b.1 ∧ Z.abs (a.2 - b.2) = 1) ∨ (a.2 = b.2 ∧ Z.abs (a.1 - b.1) = 1).

#[global] Instance adjacent_dec a b : Decision (adjacent a b).
Proof. unfold adjacent. apply _. Defined.

(** [walk g s v p]: [p] runs from [s] to [v] by unit steps, every cell
    after the first being open.  The first cell is not tested, as the
    planner never tests [start]. *)
Inductive walk (g : grid) (s : cell) : cell → path → Prop :=
| walk_start : walk g s s [s]
| walk_step u v p :
    walk g s u p → adjacent u v → is_open g v → walk g s v (p ++ [v]).

Definition reachable (g : grid) (s e : cell) : Prop := ∃ p, walk g s e p.

(** Checks that a list of cells is a walk, front to back. *)
Fixpoint steps_ok (g : grid) (a : cell) (rest : path) : bool :=
  match rest with
  | [] => true
  | b :: rest' =>
    bool_decide (adjacent a b) && bool_decide (is_open g b) && steps_ok g b rest'
  end.

(** Every row is as long as row 0. *)
Definition rectangular (g : grid) : Prop :=
  Forall (λ row, len row = width_of g) g.

(** A grid of [rows] rows of [cols] columns each. *)
Definition shape (rows cols : nat) (g : grid) : Prop :=
  length g = rows ∧ Forall (λ row, length row = cols) g.

(** The 2 x 2 and the 3 x 3 grid without walls. *)
Definition open2 : grid := [[0; 0]; [0; 0]].
Definition open3 : grid := [[0; 0; 0]; [0; 0; 0]; [0; 0; 0]].

(** ** Bookkeeping of the search *)

(** All positions inside the grid. *)
Definition cells (g : grid) : list cell :=
  list_prod (seqZ 0 (len g)) (seqZ 0 (width_of g)).

(** Cells inside the grid that the search has not seen yet. *)
Definition unseen (g : grid) (seen : gset cell) : nat :=
  length (filter (λ v, v ∉ seen) (cells g)).

(** Cells that some walk of at most [k] cells reaches. *)
Definition within (g : grid) (s : cell) (k : nat) (v : cell) : Prop :=
  ∃ p, walk g s v p ∧ (length p ≤ k)%nat.

(** Loop invariant of the search from [s] for [e].  The queue is [A ++ B]:
    [A] holds the paths of [k] cells still to be expanded, [B] the paths
    of [k + 1] cells found so far. *)
Record bfs_inv (g : grid) (s e : cell) (k : nat) (A B : list path)
    (seen : gset cell) : Prop := BfsInv {
  inv_level : (1 ≤ k)%nat;
  inv_front : ∀ p, p ∈ A → length p = k;
  inv_back : ∀ p, p ∈ B → length p = S k;
  inv_walk : ∀ p, p ∈ A ++ B →
    ∃ v, walk g s v p ∧ NoDup p ∧ ∀ x, x ∈ p → x ∈ seen;
  inv_seen_lo : ∀ v, within g s k v → v ∈ seen;
  inv_seen_hi : ∀ v, v ∈ seen →
    within g s k v ∨ ∃ p, p ∈ B ∧ last p = Some v;
  inv_closed : ∀ u v, within g s k u → adjacent u v → is_open g v →
    v ∈ seen ∨ ∃ p, p ∈ A ∧ last p = Some u;
  inv_end : e ∉ seen
}.

(** What a search outcome must satisfy. *)
Definition outcome_ok (g : grid) (s e : cell) (o : outcome) : Prop :=
  match o with
  | Found p =>
    walk g s e p ∧ NoDup p ∧ ∀ q, walk g s e q → (length p ≤ length q)%nat
  | NoPath => ¬ reachable g s e
  | Raised _ | Timeout => True
  end.

(** ** Order of the neighbours and of the paths *)

(** The four neighbours of [(r, c)] in the order of [directions]. *)
Definition neighbours (r c : Z) : list cell :=
  [(r, c + 1); (r, c - 1); (r + 1, c); (r - 1, c)].

(** The neighbour order as the specification words it:
    +row, -row, +col, -col. *)
Definition claimed_directions : list (Z * Z) := [(1, 0); (-1, 0); (0, 1); (0, -1)].

(** Position of the step from [u] to [v] in the order of [directions]
    (4 when [v] is no neighbour of [u]). *)
Definition rank (u v : cell) : nat :=
  default 4%nat (fst <$> list_find (λ d, v = (u.1 + d.1, u.2 + d.2)) directions).

(** [earlier p q]: the paths [p] and [q], of the same length, part ways at
    some cell, and there [p] takes the step that comes first in the order
    of [directions]. *)
Inductive earlier : path → path → Prop :=
| earlier_prefix p q v w : earlier p q → earlier (p ++ [v]) (q ++ [w])
| earlier_last p u v w :
    last p = Some u → (rank u v < rank u w)%nat → earlier (p ++ [v]) (p ++ [w]).

(** Order kept by the queue [A ++ B] of the search from [s]: every queued
    path is the first, in the sense of [earlier], among the walks of its
    length to its last cell, and the queue is sorted. *)
Record bfs_order (g : grid) (s : cell) (A B : list path) : Prop := BfsOrder {
  ord_min : ∀ p v q, p ∈ A ++ B → last p = Some v →
    walk g s v q → length q = length p → q = p ∨ earlier p q;
  ord_front : StronglySorted earlier A;
  ord_back : StronglySorted earlier B;
  ord_cross : ∀ b p, b ∈ B → p ∈ A → ∃ b0 w, b = b0 ++ [w] ∧ earlier b0 p
}.

(** ** What the object loop computes *)

(** Cell of an object on a grid of tiles of edge [gs]. *)
Definition cell_of (gs : Z) (o : world_object) : cell := (obj_y o / gs, obj_x o / gs).

(** Objects the loop marks on the grid. *)
Definition blocks (o : world_object) : bool :=
  String.eqb (obj_type o) "wall" || String.eqb (obj_type o) "enemy".

(** The grid as allocated, before any object is scanned. *)
Definition fresh_grid (q : request) : grid :=
  replicate (Z.to_nat (req_height q / req_grid_size q))
            (replicate (Z.to_nat (req_width q / req_grid_size q)) 0).

(** The object loop on a request of the documented shape. *)
Definition scan_request (q : request) : result locals :=
  scan_objects (PInt (req_grid_size q)) (encode_object <$> req_objects q)
    (fresh_grid q, None, None).

(** Cell recorded for the category [ty]: that of its last object. *)
Definition actor (ty : string) (gs : Z) (objs : list world_object) : option cell :=
  cell_of gs <$> last (filter (λ o, obj_type o = ty) objs).

(** What the object loop needs of one object: a dict with integer ["y"]
    and ["x"] and some ["type"]. *)
Definition object_ok (obj : pyval) : bool :=
  match getitem obj "y", getitem obj "x", getitem obj "type" with
  | Ok y, Ok x, Ok _ =>
    match as_int y, as_int x with
    | Some _, Some _ => true
    | _, _ => false
    end
  | _, _, _ => false
  end.

(** What the handler needs of a request to get through the reading of
    the fields and the object loop without a key, type or division
    error. *)
Definition well_shaped (state : pyval) : bool :=
  match getitem state "width", getitem state "height",
        getitem state "grid_size", getitem state "objects" with
  | Ok w, Ok h, Ok gs, Ok objects =>
    match as_int w, as_int h, as_int gs, py_iter objects with
    | Some _, Some _, Some g, Ok objs => negb (g =? 0) && forallb object_ok objs
    | _, _, _, _ => false
    end
  | _, _, _, _ => false
  end.

(** A value that is no number: [null], a string, an array or an
    object. *)
Definition not_number (v : pyval) : bool :=
  match v with
  | PNone | PStr _ | PList _ | PDict _ => true
  | PBool _ | PInt _ => false
  end.

(** [v[k]] raises. *)
Definition absent (v : pyval) (k : string) : bool :=
  match getitem v k with
  | Ok _ => false
  | Raise _ => true
  end.

(** [v[k]] raises, or gives a value that is no number. *)
Definition no_number_at (v : pyval) (k : string) : bool :=
  match getitem v k with
  | Ok x => not_number x
  | Raise _ => true
  end.

(** [v[k]] is the integer zero ([False] counts as zero). *)
Definition zero_at (v : pyval) (k : string) : bool :=
  match getitem v k with
  | Ok (PInt z) => z =? 0
  | Ok (PBool b) => negb b
  | _ => false
  end.

(** An item of [objects] on which the loop body raises whatever the
    grid: it has no ["y"], ["x"] or ["type"] to give, or its ["y"] or
    ["x"] is no number. *)
Definition object_defect (obj : pyval) : bool :=
  no_number_at obj "y" || no_number_at obj "x" || absent obj "type".

(** The defects of a request that make the handler raise: a required
    field that is absent or, where a number belongs, holds [null], a
    string, an array or an object; a [grid_size] of zero; an [objects]
    that cannot be iterated; an item of [objects] with a defect. *)
Definition ill_shaped (state : pyval) : bool :=
  no_number_at state "width" || no_number_at state "height"
  || no_number_at state "grid_size" || zero_at state "grid_size"
  || match getitem state "objects" with
     | Ok objects =>
       match py_iter objects with
       | Ok objs => existsb object_defect objs
       | Raise _ => true
       end
     | Raise _ => true
     end.

(** The grid [g] with the value [x] written at the cell [v], where that
    position exists. *)
Definition set_cell (g : grid) (v : cell) (x : Z) : grid :=
  if (0 <=? v.1) && (0 <=? v.2) then
    match g !! Z.to_nat v.1 with
    | Some row => <[Z.to_nat v.1 := <[Z.to_nat v.2 := x]> row]> g
    | None => g
    end
  else g.

(** The marks of the object loop alone: what it does to the grid. *)
Fixpoint mark_all (gs : Z) (objs : list world_object) (g : grid) : result grid :=
  match objs with
  | [] => Ok g
  | o :: objs' =>
    if blocks o then
      g' ← mark g (cell_of gs o).1 (cell_of gs o).2; mark_all gs objs' g'
    else mark_all gs objs' g
  end.

(** The object [o] marks row [i], column [j] of a grid of [rows] rows and
    [cols] columns. *)
Definition marks (rows cols : nat) (gs : Z) (i j : nat) (o : world_object) : bool :=
  blocks o && bool_decide (py_index rows (cell_of gs o).1 = Some i)
           && bool_decide (py_index cols (cell_of gs o).2 = Some j).

(** Objects of one of the four types the loop tests for. *)
Definition recognised (o : world_object) : bool :=
  blocks o || String.eqb (obj_type o) "player" || String.eqb (obj_type o) "ai_enemy".

(** ** Level files: save_level, get_levels, load_level *)

(** In this part a Python string is read as a sequence of code points
    below 256, one [ascii] each.  What [str.isalnum] and [str.isspace]
    answer for the code points from 128 on is left open. *)
Class CharClass := {
  wide_isalnum : ascii → bool;
  wide_isspace : ascii → bool
}.

(** [c.isalnum()] for a one-character string. *)
Definition isalnum_char `{CharClass} (c : ascii) : bool :=
  let n := nat_of_ascii c in
  if (n <? 128)%nat then
    ((48 <=? n) && (n <=? 57) || (65 <=? n) && (n <=? 90)
     || (97 <=? n) && (n <=? 122))%nat
  else wide_isalnum c.

(** [c.isspace()] for a one-character string. *)
Definition isspace_char `{CharClass} (c : ascii) : bool :=
  let n := nat_of_ascii c in
  if (n <? 128)%nat then ((9 <=? n) && (n <=? 13) || (28 <=? n) && (n <=? 32))%nat
  else wide_isspace c.

Fixpoint str_forall (f : ascii → bool) (s : string) : bool :=
  match s with
  | EmptyString => true
  | String c s' => f c && str_forall f s'
  end.

(** [t.isalnum()]: every character is alphanumeric and there is one. *)
Definition str_isalnum `{CharClass} (t : string) : bool :=
  negb (String.eqb t "") && str_forall isalnum_char t.

(** What the level handlers can raise. *)
Inductive io_exn :=
| Builtin (e : exn)
| AttributeError
| OSError
| JSONDecodeError.

Inductive attempt (A : Type) :=
| Done (a : A)
| Fail (e : io_exn).
Arguments Done {A} a.
Arguments Fail {A} e.

#[global] Instance attempt_bind : MBind attempt := λ A B k m,
  match m with
  | Done a => k a
  | Fail e => Fail e
  end.

Definition lift {A} (r : result A) : attempt A :=
  match r with
  | Ok a => Done a
  | Raise e => Fail (Builtin e)
  end.

(** The test of the generator, [c.isalnum() or c in (' ', '_', '-')]. *)
Definition kept `{CharClass} (c : pyval) : attempt bool :=
  match c with
  | PStr t =>
    Done (str_isalnum t || String.eqb t " " || String.eqb t "_" || String.eqb t "-")
  | _ => Fail AttributeError
  end.

(** ["".join(c for c in ... if ...)] over the items already drawn. *)
Fixpoint join_kept `{CharClass} (items : list pyval) : attempt string :=
  match items with
  | [] => Done ""
  | c :: rest =>
    b ← kept c;
    tail ← join_kept rest;
    Done (if (b : bool) then match c with PStr t => t +:+ tail | _ => tail end
          else tail)
  end.

(** [s.rstrip()]. *)
Fixpoint rstrip `{CharClass} (s : string) : string :=
  match s with
  | EmptyString => EmptyString
  | String c s' =>
    match rstrip s' with
    | EmptyString => if isspace_char c then EmptyString else String c EmptyString
    | t => String c t
    end
  end.

(** The [safe_filename] expression of [save_level] and [load_level]. *)
Definition safe_filename `{CharClass} (level_name : pyval) : attempt string :=
  items ← lift (py_iter level_name);
  joined ← join_kept items;
  Done (rstrip joined).

(** The same for a name that is a string, character by character. *)
Fixpoint keep_chars `{CharClass} (s : string) : string :=
  match s with
  | EmptyString => EmptyString
  | String c s' =>
    if isalnum_char c || Ascii.eqb c " "%char || Ascii.eqb c "_"%char
       || Ascii.eqb c "-"%char
    then String c (keep_chars s') else keep_chars s'
  end.

Definition sanitize `{CharClass} (s : string) : string := rstrip (keep_chars s).

(** [s.endswith(suffix)]. *)
Fixpoint endswith (s suffix : string) : bool :=
  String.eqb s suffix ||
  match s with
  | EmptyString => false
  | String _ s' => endswith s' suffix
  end.

(** [s.replace(old, new)] for a non-empty [old]: occurrences are taken
    from the left and do not overlap; [skip] counts the characters of an
    occurrence still to pass over. *)
Fixpoint replace_from (old new : string) (skip : nat) (s : string) : string :=
  match s with
  | EmptyString => EmptyString
  | String c s' =>
    match skip with
    | S k => replace_from old new k s'
    | O =>
      if String.prefix old s
      then new +:+ replace_from old new (String.length old - 1) s'
      else String c (replace_from old new 0 s')
    end
  end.

Definition str_replace (old new s : string) : string := replace_from old new 0 s.

Fixpoint has_char (a : ascii) (s : string) : bool :=
  match s with
  | EmptyString => false
  | String c s' => Ascii.eqb c a || has_char a s'
  end.

(** The file system as the handlers see it: what exists under each path.
    The content of a file is the JSON value it parses to, if it parses;
    [json.dump] followed by [json.load] gives the value back.  A path
    the operating system refuses is covered by [Platform] below; other
    failures of the machine (permissions, full disk) are left out. *)
Inductive entry :=
| Dir
| File (content : option pyval).

Definition LEVELS_DIR : string := "levels".
Definition DEFAULT_LEVELS_DIR : string := "default_levels".

(** [os.path.exists]. *)
Definition exists_path (path : string) (files : gmap string entry) : bool :=
  bool_decide (is_Some (files !! path)).

(** [os.path.join] of a directory name and a file name. *)
Definition path_join (dir name : string) : string :=
  if String.prefix "/" name then name
  else if String.eqb dir "" || endswith dir "/" then dir +:+ name
  else dir +:+ "/" +:+ name.

(** The directory a path lies in: what precedes its last ["/"]. *)
Fixpoint parent_of (path : string) : option string :=
  match path with
  | EmptyString => None
  | String c rest =>
    match parent_of rest with
    | Some d => Some (String c d)
    | None => if Ascii.eqb c "/"%char then Some EmptyString else None
    end
  end.

(** [os.path.isdir]. *)
Definition is_dir (path : string) (files : gmap string entry) : bool :=
  match files !! path with
  | Some Dir => true
  | _ => false
  end.

(** Which paths the operating system refuses to create a file at,
    whatever the directories hold (a file name over its length limit,
    for one), is left open. *)
Class Platform := { creatable : string → bool }.

(** [open(path, 'w')] succeeds when the operating system accepts the
    path, the directory is there and the path is not itself a directory;
    it raises [OSError] otherwise. *)
Definition writable `{Platform} (path : string) (files : gmap string entry) : bool :=
  creatable path &&
  match parent_of path with
  | None | Some EmptyString => true
  | Some d => is_dir d files
  end && negb (is_dir path files).

(** [json.load(open(path))]. *)
Definition read_json (path : string) (files : gmap string entry) : attempt pyval :=
  match files !! path with
  | Some (File (Some v)) => Done v
  | Some (File None) => Fail JSONDecodeError
  | Some Dir | None => Fail OSError
  end.

Fixpoint strip_prefix (pre s : string) : option string :=
  match pre with
  | EmptyString => Some s
  | String a pre' =>
    match s with
    | String b s' => if Ascii.eqb a b then strip_prefix pre' s' else None
    | EmptyString => None
    end
  end.

(** The name under which [path] appears in directory [dir], if it lies
    directly in it. *)
Definition child_name (dir path : string) : option string :=
  match strip_prefix (dir +:+ "/") path with
  | Some name =>
    if String.eqb name "" || has_char "/"%char name then None else Some name
  | None => None
  end.

(** [os.listdir], in the order the map yields. *)
Definition listdir (dir : string) (files : gmap string entry) : attempt (list string) :=
  match files !! dir with
  | Some Dir => Done (omap (child_name dir) (map_to_list files).*1)
  | _ => Fail OSError
  end.

(** Truth value of a Python value. *)
Definition truthy (v : pyval) : bool :=
  match v with
  | PNone => false
  | PBool b => b
  | PInt z => negb (z =? 0)
  | PStr s => negb (String.eqb s "")
  | PList l => match l with [] => false | _ => true end
  | PDict d => match d with [] => false | _ => true end
  end.

Definition is_list (v : pyval) : bool :=
  match v with
  | PList _ => true
  | _ => false
  end.

(** [d.get(k)]. *)
Definition py_get (v : pyval) (k : string) : attempt pyval :=
  match v with
  | PDict d => Done (default PNone (dict_get d k))
  | _ => Fail AttributeError
  end.

(** A JSON body with its HTTP code. *)
Inductive reply := Reply (body : pyval) (code : Z).

Definition reply_code (r : reply) : Z := match r with Reply _ c => c end.

Definition error_reply (message : string) (code : Z) : reply :=
  Reply (PDict [("status", PStr "error"); ("message", PStr message)]) code.

Definition saved_reply (safe : string) : reply :=
  Reply (PDict [("status", PStr "success");
                ("message", PStr ("Level '" +:+ safe +:+ "' saved."))]) 200.

(** [save_level], on the parsed body and the file system. *)
Definition save_level `{CharClass} `{Platform} (level_data : pyval)
    (files : gmap string entry)
    : gmap string entry * reply :=
  let failed := error_reply "An internal error occurred." 500 in
  match (level_name ← py_get level_data "name";
         game_objects ← py_get level_data "data";
         Done (level_name, game_objects)) with
  | Fail _ => (files, failed)
  | Done (level_name, game_objects) =>
    if negb (truthy level_name) || negb (is_list game_objects)
    then (files, error_reply "Invalid data format" 400)
    else
      let files1 :=
        if exists_path LEVELS_DIR files then files
        else <[LEVELS_DIR := Dir]> files in
      match safe_filename level_name with
      | Fail _ => (files1, failed)
      | Done safe =>
        let filepath := path_join LEVELS_DIR (safe +:+ ".json") in
        if writable filepath files1
        then (<[filepath := File (Some game_objects)]> files1, saved_reply safe)
        else (files1, failed)
      end
  end.

(** One of the two blocks of [get_levels]. *)
Definition level_entries (dir kind : string) (files : gmap string entry)
    : attempt (list pyval) :=
  if exists_path dir files then
    listdir dir files ≫= λ names : list string,
    Done ((λ name, PDict [("name", PStr name); ("type", PStr kind)]) <$>
          (str_replace ".json" "" <$> filter (λ f, endswith f ".json" = true) names))
  else Done [].

(** [get_levels]; it has no [try], so a failure is an unhandled
    exception. *)
Definition get_levels (files : gmap string entry) : attempt reply :=
  user ← level_entries LEVELS_DIR "user" files;
  dflt ← level_entries DEFAULT_LEVELS_DIR "default" files;
  Done (Reply (PList (user ++ dflt)) 200).

(** [load_level], on the two parts of the URL and the file system. *)
Definition load_level `{CharClass} (level_type level_name : string)
    (files : gmap string entry) : reply :=
  let base_dir :=
    if String.eqb level_type "default" then DEFAULT_LEVELS_DIR else LEVELS_DIR in
  match safe_filename (PStr level_name) with
  | Fail _ => error_reply "Could not load level." 500
  | Done safe =>
    let filepath := path_join base_dir (safe +:+ ".json") in
    if negb (exists_path filepath files) then error_reply "Level not found." 404
    else match read_json filepath files with
         | Done data => Reply data 200
         | Fail _ => error_reply "Could not load level." 500
         end
  end.

(** The characters [safe_filename] lets through. *)
Definition allowed_char `{CharClass} (c : ascii) : bool :=
  isalnum_char c || Ascii.eqb c " "%char || Ascii.eqb c "_"%char
  || Ascii.eqb c "-"%char.

(** The path [load_level] looks up. *)
Definition level_path `{CharClass} (level_type level_name : string) : string :=
  (if String.eqb level_type "default" then DEFAULT_LEVELS_DIR else LEVELS_DIR)
  +:+ "/" +:+ sanitize level_name +:+ ".json".

(** A table that classes no code point from 128 on as alphanumeric or
    as a space; it serves where only characters below 128 occur. *)
Definition plain_chars : CharClass :=
  {| wide_isalnum := λ _, false; wide_isspace := λ _, false |}.

(** A platform that refuses paths of more than 255 characters. *)
Definition short_paths : Platform :=
  {| creatable := λ path, (String.length path <=? 255)%nat |}.

(** ** Properties of the guard and of one pass over the offsets *)

Lemma passable_true g seen nr nc :
  passable g seen nr nc = Ok true → is_open g (nr, nc) ∧ (nr, nc) ∉ seen.
Proof.
  unfold passable, is_open, cell_at, width_of; simpl.
  destruct (0 <=? nr) eqn:H1, (nr <? len g) eqn:H2; simpl; try discriminate.
  destruct (g !! 0%nat) as [row0|]; simpl; [|discriminate].
  destruct (0 <=? nc) eqn:H3, (nc <? len row0) eqn:H4; simpl; try discriminate.
  destruct (g !! Z.to_nat nr) as [row|]; simpl; [|discriminate].
  destruct (row !! Z.to_nat nc) as [v|]; simpl; [|discriminate].
  destruct (v =? 0) eqn:H5; simpl; [|discriminate].
  intros [= Hb]. apply bool_decide_eq_true in Hb.
  apply Z.eqb_eq in H5 as ->. repeat split; try lia; done.
Qed.

Lemma passable_false g seen nr nc :
  passable g seen nr nc = Ok false → is_open g (nr, nc) → (nr, nc) ∈ seen.
Proof.
  unfold passable, is_open, cell_at, width_of; simpl.
  intros Hp (Hr & Hc & Hv). revert Hp.
  destruct (0 <=? nr) eqn:H1, (nr <? len g) eqn:H2; simpl; try lia.
  destruct (g !! 0%nat) as [row0|]; simpl in *; [|discriminate].
  destruct (0 <=? nc) eqn:H3, (nc <? len row0) eqn:H4; simpl; try lia.
  destruct (g !! Z.to_nat nr) as [row|]; simpl in *; [|discriminate].
  destruct (row !! Z.to_nat nc) as [v|]; simpl in *; [|discriminate].
  injection Hv as ->. simpl. intros [= Hb].
  apply bool_decide_eq_false in Hb. by apply dec_stable.
Qed.

Lemma passable_rectangular g seen nr nc :
  rectangular g → ∃ b, passable g seen nr nc = Ok b.
Proof.
  intros Hrect. unfold passable.
  destruct (0 <=? nr) eqn:H1, (nr <? len g) eqn:H2; cbn [negb andb]; eauto.
  unfold len in H2.
  destruct (lookup_lt_is_Some_2 g (Z.to_nat nr)) as [row Hrow]; [lia|].
  destruct (g !! 0%nat) as [row0|] eqn:H0.
  2:{ apply lookup_ge_None in H0. apply lookup_lt_Some in Hrow. lia. }
  destruct (0 <=? nc) eqn:H3, (nc <? len row0) eqn:H4; cbn [negb andb]; eauto.
  rewrite Hrow.
  assert (len row = len row0) as Hlen.
  { unfold rectangular in Hrect. rewrite Forall_forall in Hrect.
    rewrite (Hrect row) by (eapply list_elem_of_lookup_2; eauto).
    unfold width_of. by rewrite H0. }
  unfold len in *.
  destruct (lookup_lt_is_Some_2 row (Z.to_nat nc)) as [v ->]; [lia|].
  destruct (v =? 0); cbn [negb]; eauto.
Qed.

Lemma explore_continue g e p r c dirs seen queue seen' queue' :
  explore g e p r c dirs seen queue = Continue seen' queue' →
  ∃ new : list (Z * Z),
    seen' = seen ∪ list_to_set new ∧
    queue' = queue ++ ((λ v, p ++ [v]) <$> new) ∧
    NoDup new ∧
    (∀ v, v ∈ new →
       is_open g v ∧ v ∉ seen ∧ v ≠ e ∧ ∃ d, d ∈ dirs ∧ v = (r + d.1, c + d.2)) ∧
    (∀ d, d ∈ dirs → is_open g (r + d.1, c + d.2) → (r + d.1, c + d.2) ∈ seen').
Proof.
  revert seen queue. induction dirs as [|[dr dc] dirs IH]; intros seen queue; simpl.
  - intros [= <- <-]. exists []. simpl. split_and!.
    + set_solver.
    + by rewrite app_nil_r.
    + constructor.
    + intros v Hv. by apply elem_of_nil in Hv.
    + intros d Hd. by apply elem_of_nil in Hd.
  - destruct (passable g seen (r + dr) (c + dc)) as [[|]|] eqn:Hp; [| |done].
    + apply passable_true in Hp as [Hopen Hnew].
      case_bool_decide as Hend; [done|].
      intros (new & -> & -> & Hnd & Hall & Hcl)%IH.
      exists ((r + dr, c + dc) :: new). split_and!.
      * simpl. set_solver.
      * by rewrite <- app_assoc.
      * constructor; [|done]. intros Hin. apply Hall in Hin. set_solver.
      * intros v [->|Hv]%elem_of_cons.
        -- split_and!; [done..|]. exists (dr, dc). split; [left|done].
        -- destruct (Hall v Hv) as (? & ? & ? & d & ? & ?).
           split_and!; [done|set_solver|done|]. exists d. split; [by right|done].
      * intros d [->|Hd]%elem_of_cons; [set_solver|]. by apply Hcl.
    + intros (new & -> & -> & Hnd & Hall & Hcl)%IH.
      exists new. split_and!; [done..| |].
      * intros v Hv. destruct (Hall v Hv) as (? & ? & ? & d & ? & ?).
        split_and!; [done..|]. exists d. split; [by right|done].
      * intros d [->|Hd]%elem_of_cons; [|by apply Hcl].
        intros Hopen. apply (passable_false _ _ _ _ Hp) in Hopen. set_solver.
Qed.

Lemma explore_return g e p r c dirs seen queue new_path :
  explore g e p r c dirs seen queue = Return new_path →
  new_path = p ++ [e] ∧ is_open g e ∧ e ∉ seen ∧
  ∃ d, d ∈ dirs ∧ e = (r + d.1, c + d.2).
Proof.
  revert seen queue. induction dirs as [|[dr dc] dirs IH]; intros seen queue; simpl.
  - done.
  - destruct (passable g seen (r + dr) (c + dc)) as [[|]|] eqn:Hp; [| |done].
    + apply passable_true in Hp as [Hopen Hnew].
      case_bool_decide as Hend.
      * intros [= <-]. subst e. split_and!; [done..|].
        exists (dr, dc). split; [left|done].
      * intros (-> & ? & ? & d & ? & ?)%IH.
        split_and!; [done|done|set_solver|]. exists d. split; [by right|done].
    + intros (-> & ? & ? & d & ? & ?)%IH.
      split_and!; [done..|]. exists d. split; [by right|done].
Qed.

Lemma explore_rectangular g e p r c dirs seen queue x :
  rectangular g → explore g e p r c dirs seen queue ≠ Throw x.
Proof.
  intros Hrect. revert seen queue.
  induction dirs as [|[dr dc] dirs IH]; intros seen queue; simpl; [done|].
  destruct (passable_rectangular g seen (r + dr) (c + dc) Hrect) as [[|] ->].
  - case_bool_decide; [done|apply IH].
  - apply IH.
Qed.

(** ** Walks *)

Lemma adjacent_offset r c v :
  adjacent (r, c) v ↔ ∃ d, d ∈ directions ∧ v = (r + d.1, c + d.2).
Proof.
  destruct v as [r' c']. unfold adjacent, directions; simpl. split.
  - intros [[-> H]|[-> H]].
    + destruct (decide (c' = c + 1)) as [->|].
      * exists (0, 1). split; [set_solver|]. simpl. f_equal; lia.
      * exists (0, -1). split; [set_solver|]. simpl. f_equal; lia.
    + destruct (decide (r' = r + 1)) as [->|].
      * exists (1, 0). split; [set_solver|]. simpl. f_equal; lia.
      * exists (-1, 0). split; [set_solver|]. simpl. f_equal; lia.
  - intros ([dr dc] & Hd & [= -> ->]).
    repeat (apply elem_of_cons in Hd as [[= -> ->]|Hd]); simpl; try lia.
    by apply elem_of_nil in Hd.
Qed.

Lemma walk_last g s v p : walk g s v p → last p = Some v.
Proof. destruct 1; [done|apply last_snoc]. Qed.

Lemma walk_head g s v p : walk g s v p → head p = Some s.
Proof.
  induction 1 as [|u v p _ IH _ _]; [done|].
  destruct p; [done|]. simpl in *. done.
Qed.

Lemma walk_length g s v p : walk g s v p → (1 ≤ length p)%nat.
Proof. destruct 1; [simpl; lia|rewrite length_app; simpl; lia]. Qed.

(** Consecutive cells of a walk are adjacent. *)
Lemma walk_chain g s v p i a b :
  walk g s v p → p !! i = Some a → p !! S i = Some b → adjacent a b.
Proof.
  intros Hw. revert i a b.
  induction Hw as [|u v p Hw IH Hadj Hopen]; intros i a b Ha Hb.
  - by destruct i.
  - destruct (decide (S i < length p)%nat) as [Hlt|Hge].
    + rewrite lookup_app_l in Ha by lia. rewrite lookup_app_l in Hb by lia. eauto.
    + assert (S i = length p) as Hi.
      { apply lookup_lt_Some in Hb. rewrite length_app in Hb. simpl in Hb. lia. }
      rewrite lookup_app_l in Ha by lia.
      rewrite Hi in Hb. rewrite list_lookup_middle in Hb by done.
      injection Hb as <-.
      apply walk_last in Hw. rewrite last_lookup in Hw.
      replace (pred (length p)) with i in Hw by lia. congruence.
Qed.

Lemma within_mono g s k v : within g s k v → within g s (S k) v.
Proof. intros (p & ? & ?). exists p. split; [done|lia]. Qed.

Lemma within_start g s k : (1 ≤ k)%nat → within g s k s.
Proof. intros. exists [s]. split; [constructor|simpl; lia]. Qed.

Lemma within_one g s v : within g s 1 v → v = s.
Proof.
  intros (p & Hw & Hlen). destruct Hw as [|u v p Hw _ _]; [done|].
  apply walk_length in Hw. rewrite length_app in Hlen. simpl in Hlen. lia.
Qed.

Lemma within_succ g s k v :
  (1 ≤ k)%nat → within g s (S k) v →
  within g s k v ∨ ∃ u, within g s k u ∧ adjacent u v ∧ is_open g v.
Proof.
  intros Hk (p & Hw & Hlen). destruct Hw as [|u v p Hw Hadj Hopen].
  - left. by apply within_start.
  - right. exists u. split_and!; [|done..]. exists p. split; [done|].
    rewrite length_app in Hlen. simpl in Hlen. lia.
Qed.

(** A set holding [s] and closed under open neighbours holds every
    reachable cell. *)
Lemma reachable_closed (g : grid) (s : cell) (X : gset cell) (v : cell) :
  s ∈ X →
  (∀ u w, u ∈ X → adjacent u w → is_open g w → w ∈ X) →
  reachable g s v → v ∈ X.
Proof. intros Hs Hcl [p Hw]. induction Hw; eauto. Qed.

(** ** The loop invariant *)

Section search.
Context (g : grid) (s e : cell).

Lemma bfs_inv_init : s ≠ e → bfs_inv g s e 1 [[s]] [] {[s]}.
Proof.
  intros Hne. split.
  - done.
  - intros p ->%list_elem_of_singleton. done.
  - intros p Hp. by apply elem_of_nil in Hp.
  - intros p ->%list_elem_of_singleton. exists s. split_and!.
    + constructor.
    + apply NoDup_singleton.
    + intros x ->%list_elem_of_singleton. set_solver.
  - intros v ->%within_one. set_solver.
  - intros v ->%elem_of_singleton. left. by apply within_start.
  - intros u v ->%within_one _ _. right. exists [s]. split; [set_solver|done].
  - set_solver.
Qed.

Lemma bfs_inv_shift k B seen :
  bfs_inv g s e k [] B seen → bfs_inv g s e (S k) B [] seen.
Proof.
  intros [Hk HA HB Hw Hlo Hhi Hcl He]. split.
  - lia.
  - done.
  - intros p Hp. by apply elem_of_nil in Hp.
  - intros p Hp. rewrite app_nil_r in Hp. by apply Hw.
  - intros v [Hv|(u & Hu & Hadj & Hopen)]%within_succ; [by apply Hlo| |done].
    destruct (Hcl u v Hu Hadj Hopen) as [|(p & Hp & _)]; [done|].
    by apply elem_of_nil in Hp.
  - intros v Hv. left.
    destruct (Hhi v Hv) as [?%within_mono|(p & Hp & Hlast)]; [done|].
    destruct (Hw p) as (v' & Hwalk & _); [done|].
    pose proof (walk_last _ _ _ _ Hwalk) as Hlast'.
    assert (v' = v) as -> by congruence.
    exists p. split; [done|]. rewrite (HB p Hp). lia.
  - intros u v Hu Hadj Hopen.
    assert (u ∈ seen) as Hin.
    { apply within_succ in Hu as [?|(u' & Hu' & Hadj' & Hopen')]; [by apply Hlo| |done].
      destruct (Hcl u' u Hu' Hadj' Hopen') as [|(p & Hp & _)]; [done|].
      by apply elem_of_nil in Hp. }
    destruct (Hhi u Hin) as [Hu'|]; [|by right].
    destruct (Hcl u v Hu' Hadj Hopen) as [|(p & Hp & _)]; [by left|].
    by apply elem_of_nil in Hp.
  - done.
Qed.

Lemma bfs_inv_empty k seen : bfs_inv g s e k [] [] seen → ¬ reachable g s e.
Proof.
  intros [Hk HA HB Hw Hlo Hhi Hcl He] Hreach. apply He.
  apply (reachable_closed g s seen e); [|  |done].
  - apply Hlo. by apply within_start.
  - intros u w Hu Hadj Hopen.
    destruct (Hhi u Hu) as [Hu'|(p & Hp & _)]; [|by apply elem_of_nil in Hp].
    destruct (Hcl u w Hu' Hadj Hopen) as [|(p & Hp & _)]; [done|].
    by apply elem_of_nil in Hp.
Qed.

(** The popped path is a walk to its own last cell. *)
Lemma bfs_inv_head k p A B seen r c :
  bfs_inv g s e k (p :: A) B seen → last p = Some (r, c) →
  walk g s (r, c) p ∧ NoDup p ∧ (∀ x, x ∈ p → x ∈ seen) ∧ length p = k.
Proof.
  intros [Hk HA HB Hw Hlo Hhi Hcl He] Hlast.
  destruct (Hw p) as (v & Hwalk & Hnd & Hsub); [set_solver|].
  pose proof (walk_last _ _ _ _ Hwalk) as Hlast'.
  assert (v = (r, c)) as -> by congruence.
  split_and!; [done..|]. apply HA. set_solver.
Qed.

Lemma bfs_inv_step k p A B seen r c seen' queue' :
  bfs_inv g s e k (p :: A) B seen → last p = Some (r, c) →
  explore g e p r c directions seen (A ++ B) = Continue seen' queue' →
  ∃ B', queue' = A ++ B' ∧ bfs_inv g s e k A B' seen'.
Proof.
  intros Hinv Hlast (new & -> & -> & Hnd & Hnew & Hnb)%explore_continue.
  destruct (bfs_inv_head _ _ _ _ _ _ _ Hinv Hlast) as (Hwalk & Hndp & Hsub & Hlen).
  destruct Hinv as [Hk HA HB Hw Hlo Hhi Hcl He].
  exists (B ++ ((λ v, p ++ [v]) <$> new)). split; [by rewrite app_assoc|].
  split.
  - done.
  - intros q Hq. apply HA. by right.
  - intros q [Hq|(v & -> & Hv)%list_elem_of_fmap]%elem_of_app; [by apply HB|].
    rewrite length_app. simpl. lia.
  - intros q Hq. rewrite app_assoc in Hq.
    apply elem_of_app in Hq as [Hq|(v & -> & Hv)%list_elem_of_fmap].
    + destruct (Hw q) as (v & ? & ? & Hs); [set_solver|].
      exists v. split_and!; [done..|]. intros x Hx. apply Hs in Hx. set_solver.
    + destruct (Hnew v Hv) as (Hopen & Hfresh & _ & Hd).
      exists v. split_and!.
      * eapply walk_step; [done| |done]. by apply adjacent_offset.
      * apply NoDup_app. split_and!; [done| |apply NoDup_singleton].
        intros x Hx ->%list_elem_of_singleton. by apply Hfresh, Hsub.
      * intros x [Hx| ->%list_elem_of_singleton]%elem_of_app.
        -- apply Hsub in Hx. set_solver.
        -- apply elem_of_union_r, elem_of_list_to_set. done.
  - intros v Hv. apply Hlo in Hv. set_solver.
  - intros v [Hv|Hv%elem_of_list_to_set]%elem_of_union.
    + destruct (Hhi v Hv) as [|(q & ? & ?)]; [by left|].
      right. exists q. split; [set_solver|done].
    + right. exists (p ++ [v]). split; [|apply last_snoc].
      apply elem_of_app. right. apply list_elem_of_fmap. eauto.
  - intros u v Hu Hadj Hopen.
    destruct (Hcl u v Hu Hadj Hopen) as [|(q & [->|Hq]%elem_of_cons & Hq')].
    + left. set_solver.
    + left. assert (u = (r, c)) as -> by congruence.
      apply adjacent_offset in Hadj as (d & Hd & ->). by apply Hnb.
    + right. eauto.
  - intros [?|He'%elem_of_list_to_set]%elem_of_union; [done|].
    by destruct (Hnew e He') as (_ & _ & ? & _).
Qed.

Lemma bfs_inv_return k p A B seen r c new_path :
  bfs_inv g s e k (p :: A) B seen → last p = Some (r, c) →
  explore g e p r c directions seen (A ++ B) = Return new_path →
  outcome_ok g s e (Found new_path).
Proof.
  intros Hinv Hlast (-> & Hopen & Hfresh & Hd)%explore_return.
  destruct (bfs_inv_head _ _ _ _ _ _ _ Hinv Hlast) as (Hwalk & Hndp & Hsub & Hlen).
  destruct Hinv as [Hk HA HB Hw Hlo Hhi Hcl He]. simpl. split_and!.
  - eapply walk_step; [done| |done]. by apply adjacent_offset.
  - apply NoDup_app. split_and!; [done| |apply NoDup_singleton].
    intros x Hx ->%list_elem_of_singleton. by apply Hfresh, Hsub.
  - intros q Hq. rewrite length_app. simpl.
    destruct (decide (length q ≤ k)%nat) as [Hle|]; [|lia].
    destruct He. apply Hlo. by exists q.
Qed.

Lemma bfs_outcome_ok fuel k A B seen :
  bfs_inv g s e k A B seen →
  outcome_ok g s e (bfs fuel g e directions seen (A ++ B)).
Proof.
  revert k A B seen. induction fuel as [|fuel IH]; intros k A B seen Hinv; [done|].
  assert (∀ k p A B, bfs_inv g s e k (p :: A) B seen →
    outcome_ok g s e (bfs (S fuel) g e directions seen ((p :: A) ++ B))) as Hcons.
  { clear k A B Hinv. intros k p A B Hinv. cbn [bfs app].
    destruct (last p) as [[r c]|] eqn:Hlast; [|done].
    destruct (explore g e p r c directions seen (A ++ B)) as [np|seen' queue'|x] eqn:Hex.
    - by eapply bfs_inv_return.
    - destruct (bfs_inv_step _ _ _ _ _ _ _ _ _ Hinv Hlast Hex) as (B' & -> & Hinv').
      by eapply IH.
    - done. }
  destruct A as [|p A]; [|by eapply Hcons].
  destruct B as [|p B]; [by eapply bfs_inv_empty|].
  apply bfs_inv_shift in Hinv. simpl app.
  rewrite <- (app_nil_r (p :: B)). by eapply Hcons.
Qed.
End search.

(** ** Termination of the search *)

Lemma filter_unseen_le (l : list (Z * Z)) (seen : gset (Z * Z)) (v : Z * Z) :
  (length (filter (λ x, x ∉ seen ∪ {[v]}) l)
   ≤ length (filter (λ x, x ∉ seen) l))%nat.
Proof.
  induction l as [|a l IH]; [done|]. rewrite !filter_cons.
  destruct (decide (a ∉ seen ∪ {[v]})), (decide (a ∉ seen)); simpl; try lia.
  set_solver.
Qed.

Lemma filter_unseen_lt (l : list (Z * Z)) (seen : gset (Z * Z)) (v : Z * Z) :
  v ∈ l → v ∉ seen →
  (length (filter (λ x, x ∉ seen ∪ {[v]}) l)
   < length (filter (λ x, x ∉ seen) l))%nat.
Proof.
  intros Hin Hv. induction l as [|a l IH]; [by apply elem_of_nil in Hin|].
  pose proof (filter_unseen_le l seen v) as Hle. rewrite !filter_cons.
  apply elem_of_cons in Hin as [<-|Hin].
  - rewrite decide_False by set_solver. rewrite decide_True by done. simpl. lia.
  - specialize (IH Hin).
    destruct (decide (a ∉ seen ∪ {[v]})), (decide (a ∉ seen)); simpl; try lia.
    set_solver.
Qed.

Lemma is_open_cells g v : is_open g v → v ∈ cells g.
Proof.
  intros (Hr & Hc & _). unfold cells. apply list_elem_of_In.
  destruct v as [r c]. apply in_prod_iff.
  rewrite <- !list_elem_of_In, !elem_of_seqZ. simpl in *. lia.
Qed.

Lemma unseen_bound g seen :
  (unseen g seen ≤ length g * length (default [] (g !! 0%nat)))%nat.
Proof.
  unfold unseen. etrans; [apply length_filter|].
  unfold cells, width_of, len. rewrite length_prod, !length_seqZ. lia.
Qed.

Lemma explore_measure g e p r c dirs seen queue seen' queue' :
  explore g e p r c dirs seen queue = Continue seen' queue' →
  (2 * unseen g seen' + length queue' ≤ 2 * unseen g seen + length queue)%nat.
Proof.
  revert seen queue. induction dirs as [|[dr dc] dirs IH]; intros seen queue; simpl.
  - intros [= <- <-]. done.
  - destruct (passable g seen (r + dr) (c + dc)) as [[|]|] eqn:Hp; [|by apply IH|done].
    apply passable_true in Hp as [Hopen Hnew].
    case_bool_decide; [done|]. intros Hle%IH.
    rewrite length_app in Hle. simpl in Hle.
    pose proof (filter_unseen_lt (cells g) seen _ (is_open_cells _ _ Hopen) Hnew).
    unfold unseen in *. lia.
Qed.

Lemma bfs_terminates fuel g e dirs seen queue :
  (2 * unseen g seen + length queue < fuel)%nat →
  bfs fuel g e dirs seen queue ≠ Timeout.
Proof.
  revert seen queue. induction fuel as [|fuel IH]; intros seen queue Hlt; [lia|].
  destruct queue as [|p rest]; [done|]. cbn [bfs].
  destruct (last p) as [[r c]|]; [|done].
  destruct (explore g e p r c dirs seen rest) as [?|seen' queue'|?] eqn:Hex; [done| |done].
  apply IH. apply explore_measure in Hex. simpl in Hlt. lia.
Qed.

(** Once the loop has an answer, more iterations do not change it. *)
Lemma bfs_fuel_mono fuel fuel' g e dirs seen queue :
  (fuel ≤ fuel')%nat → bfs fuel g e dirs seen queue ≠ Timeout →
  bfs fuel' g e dirs seen queue = bfs fuel g e dirs seen queue.
Proof.
  revert fuel' seen queue.
  induction fuel as [|fuel IH]; intros fuel' seen queue Hle Hne; [done|].
  destruct fuel' as [|fuel']; [lia|]. cbn [bfs] in *.
  destruct queue as [|p rest]; [done|].
  destruct (last p) as [[r c]|]; [|done].
  destruct (explore g e p r c dirs seen rest); [done| |done].
  apply IH; [lia|done].
Qed.

Lemma bfs_no_raise fuel g e dirs seen queue x :
  rectangular g → Forall (λ p, p ≠ []) queue →
  bfs fuel g e dirs seen queue ≠ Raised x.
Proof.
  intros Hrect. revert seen queue.
  induction fuel as [|fuel IH]; intros seen queue Hne; [done|].
  destruct queue as [|p rest]; [done|]. cbn [bfs].
  apply Forall_cons in Hne as [Hp Hrest].
  destruct (last p) as [[r c]|] eqn:Hlast; [|by apply last_None in Hlast].
  destruct (explore g e p r c dirs seen rest) as [?|seen' queue'|y] eqn:Hex; [done| |].
  - apply explore_continue in Hex as (new & _ & -> & _). apply IH.
    apply Forall_app. split; [done|]. apply Forall_fmap, Forall_true.
    intros v. simpl. by destruct p.
  - by apply explore_rectangular in Hex.
Qed.

(** ** The planner as a whole *)

(** The iteration bound is never hit: the search itself always ends. *)
Lemma find_path_total dirs g s e : find_path_with dirs g s e ≠ Timeout.
Proof.
  unfold find_path_with. case_bool_decide; [done|].
  apply bfs_terminates. pose proof (unseen_bound g {[s]}).
  unfold budget. simpl. lia.
Qed.

(** Any larger number of iterations gives the same result. *)
Lemma find_path_more_fuel g s e n :
  s ≠ e → (budget g ≤ n)%nat →
  bfs n g e directions {[s]} [[s]] = find_path g s e.
Proof.
  intros Hne Hn. pose proof (find_path_total directions g s e) as Htot.
  unfold find_path, find_path_with in *.
  rewrite bool_decide_eq_false_2 in * by done. by apply bfs_fuel_mono.
Qed.

Lemma find_path_ok g s e : outcome_ok g s e (find_path g s e).
Proof.
  unfold find_path, find_path_with. case_bool_decide as Hse.
  - subst e. simpl. split_and!; [constructor|apply NoDup_singleton|].
    intros q Hq%walk_length. simpl. lia.
  - apply (bfs_outcome_ok g s e (budget g) 1 [[s]] []). by apply bfs_inv_init.
Qed.

Lemma find_path_no_raise g s e x : rectangular g → find_path g s e ≠ Raised x.
Proof.
  intros Hrect. unfold find_path, find_path_with. case_bool_decide; [done|].
  apply bfs_no_raise; [done|]. by repeat constructor.
Qed.

Lemma find_path_unreachable g s e :
  rectangular g → ¬ reachable g s e → find_path g s e = NoPath.
Proof.
  intros Hrect Hno. pose proof (find_path_ok g s e) as Hok.
  destruct (find_path g s e) as [p| |x|] eqn:Hfp; [|done| |].
  - destruct Hok as [Hw _]. destruct Hno. by exists p.
  - by apply find_path_no_raise in Hfp.
  - by apply find_path_total in Hfp.
Qed.

Lemma walk_cons g a b e q :
  walk g b e q → adjacent a b → is_open g b → walk g a e (a :: q).
Proof.
  intros Hw Hadj Hopen. induction Hw as [|u v p Hw IH Hadj' Hopen'].
  - apply (walk_step g a a b [a]); [constructor|done..].
  - rewrite app_comm_cons. by eapply walk_step.
Qed.

Lemma steps_ok_walk g a rest :
  steps_ok g a rest = true → ∃ e, walk g a e (a :: rest).
Proof.
  revert a. induction rest as [|b rest IH]; intros a; simpl.
  - exists a. constructor.
  - intros [[Hadj%bool_decide_eq_true Hopen%bool_decide_eq_true]%andb_prop Hrest]%andb_prop.
    destruct (IH b Hrest) as [e Hw]. exists e. by eapply walk_cons.
Qed.

(** A checked list of cells is a walk to its last cell. *)
Lemma steps_ok_walk_to g s e rest :
  steps_ok g s rest = true → last (s :: rest) = Some e → walk g s e (s :: rest).
Proof.
  intros (e' & Hw)%steps_ok_walk Hlast.
  pose proof (walk_last _ _ _ _ Hw). by assert (e' = e) as -> by congruence.
Qed.

Lemma steps_ok_reachable g s e rest :
  steps_ok g s rest = true → last (s :: rest) = Some e → reachable g s e.
Proof. intros Hok Hlast. exists (s :: rest). by apply steps_ok_walk_to. Qed.

(** C1: on a rectangular grid, when [end] is reachable from [start] through
    open cells, [find_path] returns a path from [start] to [end] through
    open cells that is no longer than any other such path: its length is
    the shortest-path distance. *)
Theorem find_path_shortest g s e :
  rectangular g → reachable g s e →
  ∃ p, find_path g s e = Found p ∧ walk g s e p ∧
       ∀ q, walk g s e q → (length p ≤ length q)%nat.
Proof.
  intros Hrect Hreach. pose proof (find_path_ok g s e) as Hok.
  destruct (find_path g s e) as [p| |x|] eqn:Hfp.
  - destruct Hok as (Hw & _ & Hmin). eauto.
  - done.
  - by apply find_path_no_raise in Hfp.
  - by apply find_path_total in Hfp.
Qed.

Lemma find_path_shortest_witness :
  ∃ p, find_path open3 (0, 0) (2, 2) = Found p ∧ walk open3 (0, 0) (2, 2) p ∧
       ∀ q, walk open3 (0, 0) (2, 2) q → (length p ≤ length q)%nat.
Proof.
  apply (find_path_shortest open3 (0, 0) (2, 2)).
  - repeat constructor.
  - apply (steps_ok_reachable open3 (0, 0) (2, 2) [(1, 0); (2, 0); (2, 1); (2, 2)]);
      vm_compute; reflexivity.
Defined.

(** The scenario of the specification: on the open 3 x 3 grid the search
    from (0,0) to (2,2) returns five cells, going along the top row first. *)
Example find_path_open3 :
  find_path open3 (0, 0) (2, 2) = Found [(0, 0); (0, 1); (0, 2); (1, 2); (2, 2)].
Proof. vm_compute. reflexivity. Qed.

(** A single row whose middle cell is a wall has no route across. *)
Example find_path_blocked_row : find_path [[0; 1; 0]] (0, 0) (0, 2) = NoPath.
Proof. vm_compute. reflexivity. Qed.

(** C4: a path returned by [find_path] starts at [start], ends at [end],
    moves one unit along one axis between consecutive cells, repeats no
    cell and has at least one cell. *)
Theorem find_path_simple_path g s e p :
  find_path g s e = Found p →
  head p = Some s ∧ last p = Some e ∧
  (∀ i a b, p !! i = Some a → p !! S i = Some b → adjacent a b) ∧
  NoDup p ∧ (1 ≤ length p)%nat.
Proof.
  intros Hfp. pose proof (find_path_ok g s e) as Hok. rewrite Hfp in Hok.
  destruct Hok as (Hw & Hnd & _). split_and!.
  - by eapply walk_head.
  - by eapply walk_last.
  - intros i a b. by eapply walk_chain.
  - done.
  - by eapply walk_length.
Qed.

Lemma find_path_simple_path_witness :
  let p := [(0, 0); (0, 1); (0, 2); (1, 2); (2, 2)] in
  head p = Some (0, 0) ∧ last p = Some (2, 2) ∧
  (∀ i a b, p !! i = Some a → p !! S i = Some b → adjacent a b) ∧
  NoDup p ∧ (1 ≤ length p)%nat.
Proof.
  apply (find_path_simple_path open3 (0, 0) (2, 2)). vm_compute. reflexivity.
Defined.

(** C5: whatever the grid holds, [find_path(grid, start, start)] is the
    one-cell path [[start]]. *)
Theorem find_path_same_cell (g : grid) (s : cell) : find_path g s s = Found [s].
Proof. unfold find_path, find_path_with. by rewrite bool_decide_eq_true_2. Qed.

(** ** Order among paths *)

Lemma earlier_length p q : earlier p q → length p = length q.
Proof. induction 1; rewrite !length_app; simpl; lia. Qed.

Lemma earlier_snoc p q v w :
  earlier (p ++ [v]) (q ++ [w]) →
  earlier p q ∨ (p = q ∧ ∃ u, last p = Some u ∧ (rank u v < rank u w)%nat).
Proof.
  inversion 1 as [p' q' v' w' Hpq Hp Hq|p' u v' w' Hlast Hrank Hp Hq].
  - apply app_inj_tail in Hp as [-> ->]. apply app_inj_tail in Hq as [-> ->].
    by left.
  - apply app_inj_tail in Hp as [-> ->]. apply app_inj_tail in Hq as [-> ->].
    right. eauto.
Qed.

Lemma earlier_irrefl p : ¬ earlier p p.
Proof.
  assert (∀ p q, earlier p q → p ≠ q) as Hne; [|intros H; by apply Hne in H].
  clear p. induction 1 as [p q v w _ IH|p u v w _ Hrank].
  - intros [? _]%app_inj_tail. done.
  - intros [_ ->]%app_inj_tail. lia.
Qed.

Lemma earlier_trans p q r : earlier p q → earlier q r → earlier p r.
Proof.
  intros Hpq. revert r.
  induction Hpq as [p q v w Hpq IH|p u v w Hlast Hrank]; intros r Hqr.
  - inversion Hqr as [q' r' w' x Hqr' Hq Hr|q' u' w' x Hlast' Hrank' Hq Hr];
      apply app_inj_tail in Hq as [-> ->].
    + constructor. by apply IH.
    + by constructor.
  - inversion Hqr as [q' r' w' x Hqr' Hq Hr|q' u' w' x Hlast' Hrank' Hq Hr];
      apply app_inj_tail in Hq as [-> ->].
    + by constructor.
    + assert (u' = u) as -> by congruence.
      eapply earlier_last; [done|lia].
Qed.

Lemma rank_neighbours r c :
  rank (r, c) (r, c + 1) = 0%nat ∧ rank (r, c) (r, c - 1) = 1%nat ∧
  rank (r, c) (r + 1, c) = 2%nat ∧ rank (r, c) (r - 1, c) = 3%nat.
Proof.
  unfold rank, directions. cbn [list_find fst snd]. split_and!.
  - rewrite decide_True by (f_equal; lia). done.
  - rewrite decide_False by (intros [=]; lia).
    rewrite decide_True by (f_equal; lia). done.
  - rewrite decide_False by (intros [=]; lia).
    rewrite decide_False by (intros [=]; lia).
    rewrite decide_True by (f_equal; lia). done.
  - rewrite decide_False by (intros [=]; lia).
    rewrite decide_False by (intros [=]; lia).
    rewrite decide_False by (intros [=]; lia).
    rewrite decide_True by (f_equal; lia). done.
Qed.

Lemma neighbours_sorted r c :
  StronglySorted (λ v w, (rank (r, c) v < rank (r, c) w)%nat) (neighbours r c).
Proof.
  destruct (rank_neighbours r c) as (H0 & H1 & H2 & H3). unfold neighbours.
  repeat (apply StronglySorted_cons; split); try constructor;
    repeat (apply Forall_cons; split); try constructor; lia.
Qed.

Lemma StronglySorted_filter {A} (R : relation A) (P : A → Prop)
    `{!∀ x, Decision (P x)} (l : list A) :
  StronglySorted R l → StronglySorted R (filter P l).
Proof.
  induction 1 as [|x l Hl IH Hx]; [constructor|].
  rewrite filter_cons. destruct (decide (P x)); [|done].
  constructor; [done|]. rewrite Forall_forall in *.
  intros y [_ Hy]%list_elem_of_filter. by apply Hx.
Qed.

(** ** Order of exploration *)

Lemma filter_fresh (g : grid) (seen : gset (Z * Z)) (v : Z * Z) (l : list (Z * Z)) :
  v ∉ l →
  filter (λ x, is_open g x ∧ x ∉ seen ∪ {[v]}) l
  = filter (λ x, is_open g x ∧ x ∉ seen) l.
Proof.
  induction l as [|a l IH]; [done|]. intros [Hne Hl]%not_elem_of_cons.
  rewrite !filter_cons, IH by done.
  destruct (decide (is_open g a ∧ a ∉ seen ∪ {[v]})) as [H1|H1],
           (decide (is_open g a ∧ a ∉ seen)) as [H2|H2]; try done.
  - destruct H2. set_solver.
  - destruct H1. set_solver.
Qed.

(** The paths one pass appends to the queue, for offsets that lead to
    pairwise different cells: the open, unseen neighbours, in the order of
    the offsets. *)
Lemma explore_enqueues g e p r c dirs seen queue seen' queue' :
  NoDup ((λ d, (r + d.1, c + d.2)) <$> dirs) →
  explore g e p r c dirs seen queue = Continue seen' queue' →
  queue' = queue ++ ((λ v, p ++ [v]) <$>
             filter (λ v, is_open g v ∧ v ∉ seen) ((λ d, (r + d.1, c + d.2)) <$> dirs)).
Proof.
  revert seen queue. induction dirs as [|[dr dc] dirs IH]; intros seen queue Hnd.
  - simpl. intros [= <- <-]. by rewrite app_nil_r.
  - rewrite fmap_cons in Hnd. apply NoDup_cons in Hnd as [Hv Hnd]. simpl in Hv.
    cbn [explore]. rewrite fmap_cons, filter_cons. cbn [fst snd].
    destruct (passable g seen (r + dr) (c + dc)) as [[|]|] eqn:Hp; [| |done].
    + apply passable_true in Hp as [Hopen Hnew].
      case_bool_decide; [done|]. intros ->%IH; [|done].
      rewrite decide_True by done. rewrite filter_fresh by done.
      by rewrite fmap_cons, <- app_assoc.
    + intros ->%IH; [|done]. rewrite decide_False; [done|].
      intros [Hopen Hnew]. by apply Hnew, (passable_false _ _ _ _ Hp).
Qed.

Lemma directions_neighbours r c :
  (λ d, (r + d.1, c + d.2)) <$> directions = neighbours r c.
Proof. unfold directions, neighbours. simpl. repeat f_equal; lia. Qed.

Lemma NoDup_neighbours r c : NoDup (neighbours r c).
Proof.
  unfold neighbours. repeat apply NoDup_cons_2; try apply NoDup_nil_2;
    rewrite ?not_elem_of_cons; split_and?; try apply not_elem_of_nil;
    intros [=]; lia.
Qed.

(** ** The object scan *)

Lemma shape_rectangular rows cols g : shape rows cols g → rectangular g.
Proof.
  intros [Hlen Hrows]. unfold rectangular, width_of.
  destruct g as [|row0 g]; [constructor|]. simpl.
  pose proof (Forall_inv Hrows) as H0. simpl in H0.
  eapply Forall_impl; [exact Hrows|].
  intros row Hrow. simpl in Hrow. unfold len. congruence.
Qed.

Lemma shape_fresh_grid q :
  shape (Z.to_nat (req_height q / req_grid_size q))
        (Z.to_nat (req_width q / req_grid_size q)) (fresh_grid q).
Proof.
  unfold fresh_grid. split; [apply length_replicate|].
  apply Forall_replicate. apply length_replicate.
Qed.

Lemma mark_shape rows cols g r c g' :
  shape rows cols g → mark g r c = Ok g' → shape rows cols g'.
Proof.
  intros [Hlen Hrows]. unfold mark.
  destruct (py_index (length g) r) as [i|]; [|done].
  destruct (g !! i) as [row|] eqn:Hrow; [|done].
  destruct (py_index (length row) c) as [j|]; [|done].
  intros [= <-]. split; [by rewrite length_insert|].
  apply Forall_insert; [done|]. rewrite length_insert.
  rewrite Forall_forall in Hrows. apply Hrows. by eapply list_elem_of_lookup_2.
Qed.

(** With non-negative indices, a position past the last row or the last
    column makes the assignment raise. *)
Lemma mark_out_of_grid rows cols g r c :
  shape rows cols g → 0 ≤ r → 0 ≤ c →
  Z.of_nat rows ≤ r ∨ Z.of_nat cols ≤ c →
  mark g r c = Raise IndexError.
Proof.
  intros [Hlen Hrows] Hr Hc Hout. unfold mark, py_index. rewrite Hlen.
  destruct (decide (Z.of_nat rows ≤ r)) as [Hge|Hlt].
  - rewrite (proj2 (Z.ltb_ge r _)) by done. rewrite andb_false_r.
    rewrite (proj2 (Z.ltb_ge r 0)) by done. by rewrite andb_false_r.
  - rewrite (proj2 (Z.leb_le 0 r)) by done.
    rewrite (proj2 (Z.ltb_lt r _)) by lia. cbn [andb].
    destruct (g !! Z.to_nat r) as [row|] eqn:Hrow; [|done].
    rewrite Forall_forall in Hrows.
    rewrite (Hrows row) by (by eapply list_elem_of_lookup_2).
    assert (Z.of_nat cols ≤ c) by lia.
    rewrite (proj2 (Z.ltb_ge c _)) by done. rewrite andb_false_r.
    rewrite (proj2 (Z.ltb_ge c 0)) by done. by rewrite andb_false_r.
Qed.

(** The loop body on an object of the documented shape. *)
Lemma scan_object_encode gs o g pl ai :
  gs ≠ 0 →
  scan_object (PInt gs) (encode_object o) (g, pl, ai) =
    if blocks o then g' ← mark g (cell_of gs o).1 (cell_of gs o).2; Ok (g', pl, ai)
    else if String.eqb (obj_type o) "player" then Ok (g, Some (cell_of gs o), ai)
    else if String.eqb (obj_type o) "ai_enemy" then Ok (g, pl, Some (cell_of gs o))
    else Ok (g, pl, ai).
Proof.
  intros Hgs. unfold scan_object, encode_object, floordiv, blocks, cell_of. simpl.
  apply Z.eqb_neq in Hgs. rewrite Hgs. simpl. reflexivity.
Qed.

(** One turn of the object loop on an object of the documented shape. *)
Ltac scan_step :=
  rewrite fmap_cons; cbn [scan_objects]; rewrite scan_object_encode by done.

(** The handler's set-up on a request of the documented shape. *)
Lemma build_encode q :
  build (encode q) =
    if req_grid_size q =? 0 then Raise ZeroDivisionError
    else st ← scan_request q; Ok (PInt (req_grid_size q), st).
Proof.
  unfold build, encode, floordiv, scan_request, fresh_grid. simpl.
  destruct (req_grid_size q =? 0); reflexivity.
Qed.

Lemma scan_objects_shape rows cols gs objs g pl ai g' pl' ai' :
  gs ≠ 0 → shape rows cols g →
  scan_objects (PInt gs) (encode_object <$> objs) (g, pl, ai) = Ok (g', pl', ai') →
  shape rows cols g'.
Proof.
  intros Hgs. revert g pl ai.
  induction objs as [|o objs IH]; intros g pl ai Hshape.
  - by intros [= <- _ _].
  - scan_step.
    destruct (blocks o).
    + destruct (mark g _ _) as [g1|] eqn:Hmark; [|done].
      apply IH. by eapply mark_shape.
    + destruct (String.eqb _ "player"); [by apply IH|].
      destruct (String.eqb _ "ai_enemy"); by apply IH.
Qed.

(** The grid a completed scan hands to the planner is rectangular. *)
Lemma scan_request_rectangular q g pl ai :
  req_grid_size q ≠ 0 → scan_request q = Ok (g, pl, ai) → rectangular g.
Proof.
  intros Hgs Hscan. eapply shape_rectangular, scan_objects_shape; [done| |exact Hscan].
  apply shape_fresh_grid.
Qed.

Lemma mark_raise g r c x : mark g r c = Raise x → x = IndexError.
Proof.
  unfold mark. destruct (py_index (length g) r); [|congruence].
  destruct (g !! _) as [row|]; [|congruence].
  destruct (py_index (length row) c); congruence.
Qed.

Lemma scan_object_raise gs o st x :
  gs ≠ 0 → scan_object (PInt gs) (encode_object o) st = Raise x → x = IndexError.
Proof.
  intros Hgs. destruct st as [[g pl] ai]. rewrite scan_object_encode by done.
  destruct (blocks o).
  - destruct (mark g _ _) eqn:Hmark; [done|]. intros [= <-]. by eapply mark_raise.
  - by repeat case_match.
Qed.

Lemma scan_objects_raise gs objs st x :
  gs ≠ 0 →
  scan_objects (PInt gs) (encode_object <$> objs) st = Raise x → x = IndexError.
Proof.
  intros Hgs. revert st. induction objs as [|o objs IH]; intros st; [done|].
  rewrite fmap_cons. cbn [scan_objects].
  destruct (scan_object _ _ st) as [st'|y] eqn:Hstep.
  - apply IH.
  - intros [= <-]. by eapply scan_object_raise.
Qed.

Lemma scan_objects_out_of_grid rows cols gs objs o g pl ai :
  gs ≠ 0 → shape rows cols g →
  o ∈ objs → blocks o = true →
  0 ≤ (cell_of gs o).1 → 0 ≤ (cell_of gs o).2 →
  Z.of_nat rows ≤ (cell_of gs o).1 ∨ Z.of_nat cols ≤ (cell_of gs o).2 →
  scan_objects (PInt gs) (encode_object <$> objs) (g, pl, ai) = Raise IndexError.
Proof.
  intros Hgs Hshape Hin Hblocks Hr Hc Hout. revert g pl ai Hshape.
  induction objs as [|o' objs IH]; intros g pl ai Hshape.
  - by apply elem_of_nil in Hin.
  - rewrite fmap_cons. cbn [scan_objects].
    destruct (scan_object _ _ (g, pl, ai)) as [[[g1 pl1] ai1]|y] eqn:Hstep.
    + apply elem_of_cons in Hin as [<-|Hin].
      * rewrite scan_object_encode, Hblocks in Hstep by done.
        by rewrite (mark_out_of_grid rows cols) in Hstep.
      * apply IH; [done|].
        eapply (scan_objects_shape rows cols gs [o']); [done..|].
        rewrite fmap_cons. cbn [scan_objects]. rewrite Hstep. done.
    + apply scan_object_raise in Hstep as ->; done.
Qed.

(** C2 (amended): with a positive tile size and non-negative pixel
    coordinates, an object whose cell lies past the last row or the last
    column is left out of occupancy marking only when its type is neither
    "wall" nor "enemy": the loop body then succeeds and returns the grid
    as it was.  A "wall" or "enemy" object there makes [grid[r][c] = 1]
    raise [IndexError], and the request is answered with the internal
    error response. *)
Theorem out_of_grid_object q o :
  0 < req_grid_size q → 0 ≤ obj_x o → 0 ≤ obj_y o →
  o ∈ req_objects q →
  req_height q / req_grid_size q ≤ (cell_of (req_grid_size q) o).1 ∨
  req_width q / req_grid_size q ≤ (cell_of (req_grid_size q) o).2 →
  (blocks o = false →
     ∀ g pl ai, ∃ pl' ai',
       scan_object (PInt (req_grid_size q)) (encode_object o) (g, pl, ai)
       = Ok (g, pl', ai')) ∧
  (blocks o = true →
     scan_request q = Raise IndexError ∧
     get_ai_move (encode q) = internal_error).
Proof.
  intros Hgs Hx Hy Hin Hout.
  assert (0 ≤ (cell_of (req_grid_size q) o).1 ∧ 0 ≤ (cell_of (req_grid_size q) o).2)
    as [Hr Hc].
  { unfold cell_of. simpl. split; apply Z.div_pos; lia. }
  split.
  - intros Hnb g pl ai. rewrite scan_object_encode, Hnb by lia.
    repeat case_match; eauto.
  - intros Hb.
    assert (scan_request q = Raise IndexError) as Hscan.
    { unfold scan_request.
      eapply scan_objects_out_of_grid; [lia|apply shape_fresh_grid|done..|lia]. }
    split; [done|].
    unfold get_ai_move, get_ai_move_with. rewrite build_encode, Hscan.
    destruct (req_grid_size q =? 0); reflexivity.
Qed.

Lemma out_of_grid_object_witness :
  let q := Request 64 64 32 [WorldObject "wall" 64 0; WorldObject "player" 0 96] in
  (∀ g pl ai, ∃ pl' ai',
     scan_object (PInt 32) (encode_object (WorldObject "player" 0 96)) (g, pl, ai)
     = Ok (g, pl', ai')) ∧
  scan_request q = Raise IndexError ∧ get_ai_move (encode q) = internal_error.
Proof.
  intros q. split.
  - apply (out_of_grid_object q (WorldObject "player" 0 96));
      [reflexivity|done|done|set_solver|left; vm_compute; discriminate|reflexivity].
  - apply (out_of_grid_object q (WorldObject "wall" 64 0));
      [reflexivity|done|done|set_solver|right; vm_compute; discriminate|reflexivity].
Defined.

(** C2 (as stated, refuted): a wall at pixel x = 64 on a 64 x 64 board of
    32-pixel tiles falls in column 2 of a two-column grid.  It is not
    skipped: the scan raises and the request fails, although without that
    wall the same request succeeds. *)
Lemma out_of_grid_wall_not_skipped :
  let actors := [WorldObject "ai_enemy" 32 0; WorldObject "player" 0 0] in
  let q := Request 64 64 32 (WorldObject "wall" 64 0 :: actors) in
  cell_of 32 (WorldObject "wall" 64 0) = (0, 2) ∧
  fresh_grid q = [[0; 0]; [0; 0]] ∧
  scan_request q = Raise IndexError ∧
  get_ai_move (encode q) = internal_error ∧
  get_ai_move (encode (Request 64 64 32 actors)) = Success 0 0.
Proof. vm_compute. split_and!; reflexivity. Qed.

(** A negative index is not out of range for Python: a wall one tile left
    of the board marks the last column. *)
Example negative_index_wraps :
  scan_request (Request 64 64 32 [WorldObject "wall" (-32) 0])
  = Ok ([[0; 1]; [0; 0]], None, None).
Proof. vm_compute. reflexivity. Qed.

(** ** The two actors *)

Lemma actor_cons ty gs o objs :
  actor ty gs (o :: objs) =
    match actor ty gs objs with
    | Some v => Some v
    | None => if decide (obj_type o = ty) then Some (cell_of gs o) else None
    end.
Proof.
  unfold actor. rewrite filter_cons.
  destruct (decide (obj_type o = ty)); [rewrite last_cons|];
    by destruct (last _).
Qed.

Lemma actor_None ty gs objs :
  actor ty gs objs = None ↔ ∀ o, o ∈ objs → obj_type o ≠ ty.
Proof.
  induction objs as [|o objs IH].
  - split; [|done]. intros _ o Ho. by apply elem_of_nil in Ho.
  - rewrite actor_cons. destruct (actor ty gs objs) as [v|].
    + split; [done|]. intros Hall.
      assert (Some v = None) as Hv; [|done].
      apply IH. intros o' Ho'. apply Hall. by right.
    + destruct (decide (obj_type o = ty)) as [Heq|Hne].
      * split; [done|]. intros Hall. destruct (Hall o); [left|done].
      * split; [|done]. intros _ o' [->|Ho']%elem_of_cons; [done|].
        by apply IH.
Qed.

Lemma blocks_type o :
  blocks o = true → obj_type o ≠ "player" ∧ obj_type o ≠ "ai_enemy".
Proof.
  unfold blocks. intros [->%String.eqb_eq| ->%String.eqb_eq]%orb_prop; done.
Qed.

(** After a completed scan each actor variable holds the cell of the last
    object of its category, or its initial value when there is none. *)
Lemma scan_objects_actors gs objs g pl ai g' pl' ai' :
  gs ≠ 0 →
  scan_objects (PInt gs) (encode_object <$> objs) (g, pl, ai) = Ok (g', pl', ai') →
  pl' = from_option Some pl (actor "player" gs objs) ∧
  ai' = from_option Some ai (actor "ai_enemy" gs objs).
Proof.
  intros Hgs. revert g pl ai. induction objs as [|o objs IH]; intros g pl ai.
  - by intros [= _ <- <-].
  - scan_step.
    rewrite !actor_cons.
    destruct (blocks o) eqn:Hb.
    + destruct (blocks_type o Hb) as [Hp Ha].
      destruct (mark g _ _) as [g1|]; [|done].
      intros [-> ->]%IH. rewrite !decide_False by done.
      by destruct (actor "player" gs objs), (actor "ai_enemy" gs objs).
    + destruct (String.eqb_spec (obj_type o) "player") as [Hp|Hp].
      * intros [-> ->]%IH. rewrite Hp.
        rewrite decide_True by done. rewrite decide_False by done.
        by destruct (actor "player" gs objs), (actor "ai_enemy" gs objs).
      * destruct (String.eqb_spec (obj_type o) "ai_enemy") as [Ha|Ha].
        -- intros [-> ->]%IH. rewrite decide_False by done.
           rewrite decide_True by done.
           by destruct (actor "player" gs objs), (actor "ai_enemy" gs objs).
        -- intros [-> ->]%IH. rewrite !decide_False by done.
           by destruct (actor "player" gs objs), (actor "ai_enemy" gs objs).
Qed.

(** What [build] returns on a request of the documented shape, when it
    returns. *)
Lemma build_encode_Ok q gs' g pl ai :
  build (encode q) = Ok (gs', (g, pl, ai)) →
  req_grid_size q ≠ 0 ∧ gs' = PInt (req_grid_size q) ∧
  scan_request q = Ok (g, pl, ai) ∧
  pl = actor "player" (req_grid_size q) (req_objects q) ∧
  ai = actor "ai_enemy" (req_grid_size q) (req_objects q).
Proof.
  rewrite build_encode. destruct (Z.eqb_spec (req_grid_size q) 0) as [|Hgs]; [done|].
  destruct (scan_request q) as [[[g1 pl1] ai1]|] eqn:Hscan; [|done].
  intros [= <- <- <- <-]. split_and!; [done..| |].
  - apply scan_objects_actors in Hscan as [-> _]; [|done].
    by destruct (actor "player" _ _).
  - apply scan_objects_actors in Hscan as [_ ->]; [|done].
    by destruct (actor "ai_enemy" _ _).
Qed.

Lemma mark_in_grid rows cols g r c :
  shape rows cols g → 0 ≤ r < Z.of_nat rows → 0 ≤ c < Z.of_nat cols →
  ∃ g', mark g r c = Ok g'.
Proof.
  intros [Hlen Hrows] Hr Hc. unfold mark, py_index. rewrite Hlen.
  rewrite (proj2 (Z.leb_le 0 r)), (proj2 (Z.ltb_lt r _)) by lia. cbn [andb].
  destruct (lookup_lt_is_Some_2 g (Z.to_nat r)) as [row Hrow]; [lia|].
  rewrite Hrow. rewrite Forall_forall in Hrows.
  rewrite (Hrows row) by (by eapply list_elem_of_lookup_2).
  rewrite (proj2 (Z.leb_le 0 c)), (proj2 (Z.ltb_lt c _)) by lia. cbn [andb].
  eauto.
Qed.

Lemma scan_objects_completes rows cols gs objs g pl ai :
  gs ≠ 0 → shape rows cols g →
  Forall (λ o, blocks o = true →
            0 ≤ (cell_of gs o).1 < Z.of_nat rows ∧
            0 ≤ (cell_of gs o).2 < Z.of_nat cols) objs →
  ∃ st, scan_objects (PInt gs) (encode_object <$> objs) (g, pl, ai) = Ok st.
Proof.
  intros Hgs Hshape Hall. revert g pl ai Hshape.
  induction Hall as [|o objs Ho _ IH]; intros g pl ai Hshape; [by eexists|].
  scan_step.
  destruct (blocks o) eqn:Hb.
  - destruct (Ho eq_refl) as [Hr Hc].
    destruct (mark_in_grid rows cols g _ _ Hshape Hr Hc) as [g' Hmark].
    rewrite Hmark. apply IH. by eapply mark_shape.
  - destruct (String.eqb _ "player"); [by apply IH|].
    destruct (String.eqb _ "ai_enemy"); by apply IH.
Qed.

(** With a non-zero tile size and every "wall" and "enemy" inside the
    board, the set-up runs to its end and records the last "player" and
    the last "ai_enemy". *)
Lemma build_completes q :
  req_grid_size q ≠ 0 →
  Forall (λ o, blocks o = true →
            0 ≤ (cell_of (req_grid_size q) o).1 < req_height q / req_grid_size q ∧
            0 ≤ (cell_of (req_grid_size q) o).2 < req_width q / req_grid_size q)
         (req_objects q) →
  ∃ g, build (encode q)
       = Ok (PInt (req_grid_size q),
             (g, actor "player" (req_grid_size q) (req_objects q),
                 actor "ai_enemy" (req_grid_size q) (req_objects q))).
Proof.
  intros Hgs Hall.
  destruct (scan_objects_completes
              (Z.to_nat (req_height q / req_grid_size q))
              (Z.to_nat (req_width q / req_grid_size q))
              (req_grid_size q) (req_objects q) (fresh_grid q) None None)
    as [[[g pl] ai] Hscan]; [done|apply shape_fresh_grid| |].
  { eapply Forall_impl; [exact Hall|]. intros o Ho Hb. specialize (Ho Hb). lia. }
  assert (build (encode q) = Ok (PInt (req_grid_size q), (g, pl, ai))) as Hb.
  { rewrite build_encode. destruct (Z.eqb_spec (req_grid_size q) 0); [done|].
    unfold scan_request. by rewrite Hscan. }
  destruct (build_encode_Ok _ _ _ _ _ Hb) as (_ & _ & _ & -> & ->). eauto.
Qed.

Lemma missing_actor_completed planner q gs' st :
  build (encode q) = Ok (gs', st) →
  get_ai_move_with planner (encode q) = missing_actor ↔
    (∀ o, o ∈ req_objects q → obj_type o ≠ "player") ∨
    (∀ o, o ∈ req_objects q → obj_type o ≠ "ai_enemy").
Proof.
  destruct st as [[g pl] ai]. intros Hb.
  destruct (build_encode_Ok _ _ _ _ _ Hb) as (Hgs & -> & _ & Hpl & Hai).
  rewrite <- !(actor_None _ (req_grid_size q)), <- Hpl, <- Hai.
  unfold get_ai_move_with. rewrite Hb. cbn [mbind result_bind respond].
  destruct pl as [player|]; [|split; [by left|done]].
  destruct ai as [enemy|]; [|split; [by right|done]].
  split; [|by intros [|]].
  unfold py_mul. cbn [as_int mbind result_bind].
  destruct (planner g enemy player) as [p| | |]; try done.
  destruct (1 <? len p); [|done]. by destruct (p !! 1%nat) as [[??]|].
Qed.

(** C7 (amended): for a request of the documented shape, once the object
    loop has run to its end without raising, with no "player" or no
    "ai_enemy" among the objects,
    the answer is the missing-actor failure, whatever the planner would
    compute, so no planning enters that answer; and the missing-actor
    failure is never the answer when both a "player" and an "ai_enemy"
    are among the objects. *)
Theorem missing_actor_iff planner q :
  (∀ gs' st, build (encode q) = Ok (gs', st) →
     (∀ o, o ∈ req_objects q → obj_type o ≠ "player") ∨
     (∀ o, o ∈ req_objects q → obj_type o ≠ "ai_enemy") →
     get_ai_move_with planner (encode q) = missing_actor) ∧
  ((∃ o, o ∈ req_objects q ∧ obj_type o = "player") →
   (∃ o, o ∈ req_objects q ∧ obj_type o = "ai_enemy") →
   get_ai_move_with planner (encode q) ≠ missing_actor).
Proof.
  split.
  - intros gs' st Hb Hnone. by apply (missing_actor_completed planner q gs' st).
  - intros (o1 & Hin1 & Hty1) (o2 & Hin2 & Hty2) Hresp.
    destruct (build (encode q)) as [[gs' st]|x] eqn:Hb.
    + apply (missing_actor_completed planner q gs' st Hb) in Hresp as [Hno|Hno].
      * by apply (Hno o1).
      * by apply (Hno o2).
    + unfold get_ai_move_with in Hresp. by rewrite Hb in Hresp.
Qed.

Lemma missing_actor_iff_witness :
  let q := Request 64 64 32 [WorldObject "ai_enemy" 32 0; WorldObject "wall" 0 32] in
  let q' := Request 64 64 32 [WorldObject "ai_enemy" 32 0; WorldObject "player" 0 32] in
  get_ai_move_with find_path (encode q) = missing_actor ∧
  get_ai_move_with find_path (encode q') ≠ missing_actor.
Proof.
  intros q q'. split.
  - apply (proj1 (missing_actor_iff find_path q)
             (PInt 32) ([[0; 0]; [1; 0]], None, Some (0, 1))).
    + vm_compute. reflexivity.
    + left. intros o Ho. vm_compute in Ho.
      repeat (apply elem_of_cons in Ho as [->|Ho]); [done..|].
      by apply elem_of_nil in Ho.
  - apply (proj2 (missing_actor_iff find_path q')).
    + exists (WorldObject "player" 0 32). split; [set_solver|reflexivity].
    + exists (WorldObject "ai_enemy" 32 0). split; [set_solver|reflexivity].
Defined.

(** C7 (as stated, refuted): a request of the documented shape with no
    "player" among its objects is not always answered with the
    missing-actor failure.  Here the wall at pixel x = 64 falls in column
    2 of a two-column grid: the object loop raises on it before the
    actors are looked at, and the answer is the 500 of the [except]
    clause. *)
Lemma missing_actor_preempted :
  let q := Request 64 64 32 [WorldObject "wall" 64 0; WorldObject "ai_enemy" 32 0] in
  (∀ o, o ∈ req_objects q → obj_type o ≠ "player") ∧
  build (encode q) = Raise IndexError ∧
  get_ai_move (encode q) = internal_error ∧
  get_ai_move (encode q) ≠ missing_actor.
Proof.
  intros q. split_and!.
  - intros o Ho. vm_compute in Ho.
    repeat (apply elem_of_cons in Ho as [->|Ho]); [done..|].
    by apply elem_of_nil in Ho.
  - vm_compute. reflexivity.
  - vm_compute. reflexivity.
  - vm_compute. discriminate.
Qed.

(** The scenario of the specification: no target among the objects. *)
Example no_player_is_missing_actor :
  get_ai_move (encode (Request 64 64 32 [WorldObject "ai_enemy" 32 0; WorldObject "wall" 0 32]))
  = missing_actor.
Proof. vm_compute. reflexivity. Qed.

(** ** The recommended move *)

Lemma passable_open g seen nr nc :
  is_open g (nr, nc) → passable g seen nr nc = Ok (bool_decide ((nr, nc) ∉ seen)).
Proof.
  unfold is_open, cell_at, width_of, passable. cbn [fst snd].
  intros (Hr & Hc & Hv).
  rewrite (proj2 (Z.leb_le 0 nr)), (proj2 (Z.ltb_lt nr (len g))) by lia.
  cbn [andb negb].
  destruct (g !! 0%nat) as [row0|]; [|simpl in Hc; unfold len in Hc; simpl in Hc; lia].
  simpl in Hc.
  rewrite (proj2 (Z.leb_le 0 nc)), (proj2 (Z.ltb_lt nc (len row0))) by lia.
  cbn [andb negb].
  destruct (g !! Z.to_nat nr) as [row|]; [|done]. simpl in Hv. by rewrite Hv.
Qed.

Lemma two_right_not_neighbour r c d :
  d ∈ directions → (r, c + 2) ≠ (r + d.1, c + d.2).
Proof.
  unfold directions. intros Hd.
  repeat (apply elem_of_cons in Hd as [->|Hd]); simpl; try (intros [=]; lia).
  by apply elem_of_nil in Hd.
Qed.

Lemma bfs_pop fuel g e dirs seen p rest r c :
  last p = Some (r, c) →
  bfs (S fuel) g e dirs seen (p :: rest) =
    match explore g e p r c dirs seen rest with
    | Return new_path => Found new_path
    | Throw x => Raised x
    | Continue seen' queue' => bfs fuel g e dirs seen' queue'
    end.
Proof. intros Hlast. cbn [bfs]. by rewrite Hlast. Qed.

Lemma explore_pass g e p r c dr dc dirs seen queue :
  is_open g (r + dr, c + dc) → (r + dr, c + dc) ∉ seen → (r + dr, c + dc) ≠ e →
  explore g e p r c ((dr, dc) :: dirs) seen queue =
    explore g e p r c dirs (seen ∪ {[(r + dr, c + dc)]})
      (queue ++ [p ++ [(r + dr, c + dc)]]).
Proof.
  intros Hopen Hnew Hne. cbn [explore]. rewrite (passable_open _ _ _ _ Hopen).
  rewrite bool_decide_eq_true_2 by done. by rewrite bool_decide_eq_false_2.
Qed.

Lemma explore_hit g e p r c dr dc dirs seen queue :
  is_open g (r + dr, c + dc) → (r + dr, c + dc) ∉ seen → (r + dr, c + dc) = e →
  explore g e p r c ((dr, dc) :: dirs) seen queue = Return (p ++ [e]).
Proof.
  intros Hopen Hnew He. cbn [explore]. rewrite (passable_open _ _ _ _ Hopen).
  rewrite bool_decide_eq_true_2 by done. rewrite bool_decide_eq_true_2 by done.
  by rewrite He.
Qed.

(** A target two cells to the right along a free corridor is reached
    through the cell in between. *)
Lemma find_path_two_right g r c :
  rectangular g → is_open g (r, c + 1) → is_open g (r, c + 2) →
  find_path g (r, c) (r, c + 2) = Found [(r, c); (r, c + 1); (r, c + 2)].
Proof.
  intros Hrect H1 H2.
  pose proof (find_path_total directions g (r, c) (r, c + 2)) as Htot.
  unfold find_path, find_path_with in *.
  rewrite bool_decide_eq_false_2 in * by (intros [=]; lia).
  assert (explore g (r, c + 2) [(r, c)] r c directions {[(r, c)]} [] =
          explore g (r, c + 2) [(r, c)] r c [(0, -1); (1, 0); (-1, 0)]
            ({[(r, c)]} ∪ {[(r, c + 1)]}) [[(r, c); (r, c + 1)]]) as Hfirst.
  { unfold directions. rewrite explore_pass; replace (r + 0) with r by lia;
      [done|done| |intros [=]; lia].
    rewrite elem_of_singleton. intros [=]; lia. }
  destruct (explore g (r, c + 2) [(r, c)] r c [(0, -1); (1, 0); (-1, 0)] _ _)
    as [np|seen' queue'|x] eqn:Hex.
  - apply explore_return in Hex as (_ & _ & _ & d & Hd & Heq).
    apply two_right_not_neighbour in Heq; [done|]. by right.
  - apply explore_continue in Hex as (new & -> & -> & _ & Hnew & _).
    destruct (budget g) as [|[|fuel]]; [done| |].
    + exfalso. apply Htot. rewrite (bfs_pop _ _ _ _ _ _ _ r c) by done.
      by rewrite Hfirst.
    + rewrite (bfs_pop _ _ _ _ _ _ _ r c) by done. rewrite Hfirst.
      cbn [app]. rewrite (bfs_pop _ _ _ _ _ _ _ r (c + 1)) by done.
      unfold directions. rewrite explore_hit; [done| | |f_equal; lia].
      * by replace (r + 0, c + 1 + 1) with (r, c + 2) by (f_equal; lia).
      * replace (r + 0, c + 1 + 1) with (r, c + 2) by (f_equal; lia).
        rewrite !elem_of_union, !elem_of_singleton, elem_of_list_to_set.
        intros [[[=]|[=]]|Hin]; try lia.
        destruct (Hnew _ Hin) as (_ & _ & _ & d & Hd & Heq).
        apply two_right_not_neighbour in Heq; [done|]. by right.
  - by apply explore_rectangular in Hex.
Qed.

Lemma is_open_fresh_grid q r c :
  0 ≤ r < req_height q / req_grid_size q →
  0 ≤ c < req_width q / req_grid_size q →
  is_open (fresh_grid q) (r, c).
Proof.
  intros Hr Hc. unfold is_open, cell_at, width_of, fresh_grid, len. cbn [fst snd].
  rewrite (lookup_replicate_2 _ _ 0) by lia.
  rewrite (lookup_replicate_2 _ _ (Z.to_nat r)) by lia. simpl.
  rewrite !length_replicate, lookup_replicate_2 by lia. split_and!; try lia; done.
Qed.

Lemma scan_object_player gs x y g pl ai :
  gs ≠ 0 →
  scan_object (PInt gs) (encode_object (WorldObject "player" x y)) (g, pl, ai)
  = Ok (g, Some (y / gs, x / gs), ai).
Proof. intros Hgs. by rewrite scan_object_encode. Qed.

Lemma scan_object_ai_enemy gs x y g pl ai :
  gs ≠ 0 →
  scan_object (PInt gs) (encode_object (WorldObject "ai_enemy" x y)) (g, pl, ai)
  = Ok (g, pl, Some (y / gs, x / gs)).
Proof. intros Hgs. by rewrite scan_object_encode. Qed.

(** The specification's scenario, for any board that holds the cells and
    any pixel position inside them: pursuer in cell (5,5), target in cell
    (5,7), no other object, tiles of 32 pixels. *)
Lemma corridor_scenario width height ax ay px py :
  8 ≤ width / 32 → 6 ≤ height / 32 →
  ay / 32 = 5 → ax / 32 = 5 → py / 32 = 5 → px / 32 = 7 →
  get_ai_move (encode (Request width height 32
    [WorldObject "ai_enemy" ax ay; WorldObject "player" px py]))
  = Success 192 160.
Proof.
  intros Hw Hh Hay Hax Hpy Hpx.
  set (q := Request width height 32 _).
  assert (scan_request q = Ok (fresh_grid q, Some (5, 7), Some (5, 5))) as Hscan.
  { unfold scan_request, q. cbn [req_objects req_grid_size].
    rewrite !fmap_cons. cbn [scan_objects].
    rewrite scan_object_ai_enemy by done. cbn [mbind result_bind].
    rewrite scan_object_player by done.
    rewrite Hay, Hax, Hpy, Hpx. reflexivity. }
  unfold get_ai_move, get_ai_move_with. rewrite build_encode, Hscan.
  cbn [req_grid_size q Z.eqb mbind result_bind respond].
  change (5, 7) with (5, 5 + 2).
  rewrite find_path_two_right.
  - reflexivity.
  - eapply shape_rectangular, shape_fresh_grid.
  - apply is_open_fresh_grid; simpl; lia.
  - apply is_open_fresh_grid; simpl; lia.
Qed.

(** C9: when the planner finds a path of more than one cell, the answer is
    the success body carrying the pixel corner of the path's second cell,
    [(col * grid_size, row * grid_size)]; and with the pursuer in cell
    (5,5), the target in cell (5,7), no obstacle and tiles of 32 pixels
    that is pixel (192, 160). *)
Theorem next_move :
  (∀ q gs' g player ai p,
     build (encode q) = Ok (gs', (g, Some player, Some ai)) →
     find_path g ai player = Found p → (1 < length p)%nat →
     ∃ next, p !! 1%nat = Some next ∧
       get_ai_move (encode q)
       = Success (next.2 * req_grid_size q) (next.1 * req_grid_size q)) ∧
  (∀ width height ax ay px py,
     8 ≤ width / 32 → 6 ≤ height / 32 →
     ay / 32 = 5 → ax / 32 = 5 → py / 32 = 5 → px / 32 = 7 →
     get_ai_move (encode (Request width height 32
       [WorldObject "ai_enemy" ax ay; WorldObject "player" px py]))
     = Success 192 160).
Proof.
  split; [|apply corridor_scenario].
  intros q gs' g player ai p Hb Hfp Hlen.
  destruct (build_encode_Ok _ _ _ _ _ Hb) as (_ & -> & _).
  destruct (lookup_lt_is_Some_2 p 1) as [[next_r next_c] Hnext]; [done|].
  exists (next_r, next_c). split; [done|].
  unfold get_ai_move, get_ai_move_with. rewrite Hb.
  cbn [mbind result_bind respond]. rewrite Hfp, Hnext.
  rewrite (proj2 (Z.ltb_lt 1 (len p))) by (unfold len; lia). reflexivity.
Qed.

Lemma next_move_witness :
  let q := Request 640 480 32
             [WorldObject "ai_enemy" 160 160; WorldObject "player" 224 160] in
  (∃ next, [(5, 5); (5, 6); (5, 7)] !! 1%nat = Some next ∧
     get_ai_move (encode q) = Success (next.2 * 32) (next.1 * 32)) ∧
  get_ai_move (encode q) = Success 192 160.
Proof.
  intros q. split.
  - apply (proj1 next_move q (PInt 32)
             (replicate 15 (replicate 20 0)) (5, 7) (5, 5)).
    + vm_compute. reflexivity.
    + vm_compute. reflexivity.
    + simpl. lia.
  - apply (proj2 next_move 640 480 160 160 224 160); vm_compute; done.
Defined.

(** ** Objects of type "goal" *)

Lemma scan_object_goal gs o st :
  gs ≠ 0 → obj_type o = "goal" →
  scan_object (PInt gs) (encode_object o) st = Ok st.
Proof.
  intros Hgs Hty. destruct st as [[g pl] ai].
  rewrite scan_object_encode by done. unfold blocks. by rewrite Hty.
Qed.

Lemma scan_objects_without_goals gs objs st :
  gs ≠ 0 →
  scan_objects (PInt gs) (encode_object <$> objs) st =
  scan_objects (PInt gs)
    (encode_object <$> filter (λ o, obj_type o ≠ "goal") objs) st.
Proof.
  intros Hgs. revert st. induction objs as [|o objs IH]; intros st; [done|].
  rewrite filter_cons. destruct (decide (obj_type o ≠ "goal")) as [Hne|Heq].
  - rewrite !fmap_cons. cbn [scan_objects].
    destruct (scan_object _ _ st); [apply IH|done].
  - apply dec_stable in Heq. rewrite fmap_cons. cbn [scan_objects].
    rewrite scan_object_goal by done. apply IH.
Qed.

(** C10: two requests of the documented shape that differ only in their
    "goal" objects get the same grid, the same actors and the same answer;
    the loop body leaves all three variables as they were on a "goal"
    object. *)
Theorem goal_objects_ignored q1 q2 :
  req_width q1 = req_width q2 → req_height q1 = req_height q2 →
  req_grid_size q1 = req_grid_size q2 →
  filter (λ o, obj_type o ≠ "goal") (req_objects q1)
  = filter (λ o, obj_type o ≠ "goal") (req_objects q2) →
  build (encode q1) = build (encode q2) ∧
  get_ai_move (encode q1) = get_ai_move (encode q2) ∧
  (req_grid_size q1 ≠ 0 →
   ∀ o st, obj_type o = "goal" →
     scan_object (PInt (req_grid_size q1)) (encode_object o) st = Ok st).
Proof.
  intros Hw Hh Hgs Hobjs.
  assert (build (encode q1) = build (encode q2)) as Hbuild.
  { rewrite !build_encode, <- Hgs.
    destruct (Z.eqb_spec (req_grid_size q1) 0) as [|Hne]; [done|].
    unfold scan_request, fresh_grid. rewrite <- Hw, <- Hh, <- Hgs.
    rewrite (scan_objects_without_goals _ (req_objects q1)) by done.
    rewrite (scan_objects_without_goals _ (req_objects q2)) by done.
    by rewrite Hobjs. }
  split_and!; [done| |].
  - unfold get_ai_move, get_ai_move_with. by rewrite Hbuild.
  - intros Hne o st Hty. by apply scan_object_goal.
Qed.

Lemma goal_objects_ignored_witness :
  let q1 := Request 64 64 32
    [WorldObject "goal" 0 0; WorldObject "ai_enemy" 32 0;
     WorldObject "goal" 500 500; WorldObject "player" 0 32] in
  let q2 := Request 64 64 32
    [WorldObject "ai_enemy" 32 0; WorldObject "player" 0 32;
     WorldObject "goal" (-5) 7] in
  build (encode q1) = build (encode q2) ∧
  get_ai_move (encode q1) = get_ai_move (encode q2) ∧
  (req_grid_size q1 ≠ 0 →
   ∀ o st, obj_type o = "goal" →
     scan_object (PInt (req_grid_size q1)) (encode_object o) st = Ok st).
Proof.
  intros q1 q2.
  apply (goal_objects_ignored q1 q2); vm_compute; reflexivity.
Defined.

(** ** No route *)

Lemma actor_Some ty gs objs v :
  actor ty gs objs = Some v →
  ∃ o, last (filter (λ o, obj_type o = ty) objs) = Some o ∧ v = cell_of gs o.
Proof.
  unfold actor. destruct (last _) as [o|]; [|done].
  intros [= <-]. eauto.
Qed.

(** C6 (amended): on a rectangular grid, when [end] cannot be reached
    from [start] through open cells, [find_path] returns no path.  When
    the scan has found both actors and the target cannot be reached from
    the pursuer's cell, the answer is the "no_move" body, whose status
    differs from "success" and from "error", carrying the pixel corner of
    the pursuer's cell, [(col * grid_size, row * grid_size)] for the last
    "ai_enemy" object; this is the pursuer's own pixel position exactly
    when that position is a multiple of the tile size on both axes. *)
Theorem no_route_holds :
  (∀ g s e, rectangular g → ¬ reachable g s e → find_path g s e = NoPath) ∧
  (∀ q gs' g player ai,
     build (encode q) = Ok (gs', (g, Some player, Some ai)) →
     ¬ reachable g ai player →
     find_path g ai player = NoPath ∧
     ∃ o, last (filter (λ o, obj_type o = "ai_enemy") (req_objects q)) = Some o ∧
       get_ai_move (encode q)
       = NoMove (obj_x o / req_grid_size q * req_grid_size q)
                (obj_y o / req_grid_size q * req_grid_size q) ∧
       status (get_ai_move (encode q)) = "no_move" ∧
       (get_ai_move (encode q) = NoMove (obj_x o) (obj_y o) ↔
        (req_grid_size q | obj_x o) ∧ (req_grid_size q | obj_y o))).
Proof.
  split; [apply find_path_unreachable|].
  intros q gs' g player ai Hb Hno.
  destruct (build_encode_Ok _ _ _ _ _ Hb) as (Hgs & -> & Hscan & _ & Hai).
  assert (find_path g ai player = NoPath) as Hfp.
  { apply find_path_unreachable; [|done]. by eapply scan_request_rectangular. }
  split; [done|]. symmetry in Hai.
  apply actor_Some in Hai as (o & Hlast & ->). exists o.
  assert (get_ai_move (encode q)
          = NoMove (obj_x o / req_grid_size q * req_grid_size q)
                   (obj_y o / req_grid_size q * req_grid_size q)) as Hresp.
  { unfold get_ai_move, get_ai_move_with. rewrite Hb.
    cbn [mbind result_bind respond]. by rewrite Hfp. }
  split_and!; [done|done|by rewrite Hresp|].
  rewrite Hresp. split.
  - intros [= Hx Hy]. split; eexists; symmetry; eassumption.
  - intros [[kx Hx] [ky Hy]]. rewrite Hx, Hy. by rewrite !Z.div_mul.
Qed.

Lemma no_route_holds_witness :
  let q := Request 96 32 32
    [WorldObject "ai_enemy" 0 0; WorldObject "wall" 32 0; WorldObject "player" 64 0] in
  find_path [[0; 1; 0]] (0, 0) (0, 2) = NoPath ∧
  find_path [[0; 1; 0]] (0, 0) (0, 2) = NoPath ∧
  ∃ o, last (filter (λ o, obj_type o = "ai_enemy") (req_objects q)) = Some o ∧
    get_ai_move (encode q)
    = NoMove (obj_x o / req_grid_size q * req_grid_size q)
             (obj_y o / req_grid_size q * req_grid_size q) ∧
    status (get_ai_move (encode q)) = "no_move" ∧
    (get_ai_move (encode q) = NoMove (obj_x o) (obj_y o) ↔
     (req_grid_size q | obj_x o) ∧ (req_grid_size q | obj_y o)).
Proof.
  intros q.
  assert (¬ reachable [[0; 1; 0]] (0, 0) (0, 2)) as Hno.
  { pose proof (find_path_ok [[0; 1; 0]] (0, 0) (0, 2)) as Hok.
    vm_compute find_path in Hok. exact Hok. }
  split.
  - apply (proj1 no_route_holds [[0; 1; 0]] (0, 0) (0, 2)); [|exact Hno].
    repeat constructor.
  - apply (proj2 no_route_holds q (PInt 32) [[0; 1; 0]] (0, 2) (0, 0)); [|exact Hno].
    vm_compute. reflexivity.
Defined.

(** C6 (as stated, refuted): a pursuer standing at pixel (8, 0), cut off
    from the target by a wall, is told to hold at pixel (0, 0), the corner
    of its tile, not at its own position. *)
Lemma hold_snaps_to_tile :
  let q := Request 96 32 32
    [WorldObject "ai_enemy" 8 0; WorldObject "wall" 32 0; WorldObject "player" 64 0] in
  scan_request q = Ok ([[0; 1; 0]], Some (0, 2), Some (0, 0)) ∧
  find_path [[0; 1; 0]] (0, 0) (0, 2) = NoPath ∧
  ¬ reachable [[0; 1; 0]] (0, 0) (0, 2) ∧
  get_ai_move (encode q) = NoMove 0 0 ∧
  get_ai_move (encode q) ≠ NoMove 8 0.
Proof.
  intros q. split_and!; try (vm_compute; reflexivity).
  - pose proof (find_path_ok [[0; 1; 0]] (0, 0) (0, 2)) as Hok.
    vm_compute find_path in Hok. exact Hok.
  - vm_compute. discriminate.
Qed.

(** ** Requests of another shape *)

Lemma scan_object_not_ok grid_size obj st :
  object_ok obj = false → ∃ x, scan_object grid_size obj st = Raise x.
Proof.
  destruct st as [[g pl] ai]. unfold object_ok, scan_object, floordiv.
  destruct (getitem obj "y") as [y|]; [|by eauto].
  cbn [mbind result_bind].
  destruct (as_int y) as [yz|]; [|by eauto].
  destruct (as_int grid_size) as [gz|]; [|by eauto].
  destruct (gz =? 0); [by eauto|]. cbn [mbind result_bind].
  destruct (getitem obj "x") as [x|]; [|by eauto].
  cbn [mbind result_bind].
  destruct (as_int x) as [xz|]; [|by eauto].
  destruct (getitem obj "type") as [ty|]; [done|by eauto].
Qed.

Lemma scan_objects_not_ok grid_size objs st :
  forallb object_ok objs = false → ∃ x, scan_objects grid_size objs st = Raise x.
Proof.
  revert st. induction objs as [|obj objs IH]; intros st; [done|].
  cbn [forallb scan_objects]. intros [Hobj|Hrest]%andb_false_iff.
  - destruct (scan_object_not_ok grid_size obj st Hobj) as [x ->]. by eauto.
  - destruct (scan_object grid_size obj st) as [st'|x]; [|by eauto].
    by apply IH.
Qed.

Lemma build_ill_shaped state :
  well_shaped state = false → ∃ x, build state = Raise x.
Proof.
  unfold well_shaped, build, floordiv.
  destruct (getitem state "width") as [w|]; [|by eauto].
  destruct (getitem state "height") as [h|]; [|by eauto].
  destruct (getitem state "grid_size") as [gs|]; [|by eauto].
  destruct (getitem state "objects") as [objects|]; [|by eauto].
  cbn [mbind result_bind].
  destruct (as_int w) as [wz|]; [|by eauto].
  destruct (as_int h) as [hz|].
  2:{ destruct (as_int gs) as [gz|]; [|by eauto]. destruct (gz =? 0); by eauto. }
  destruct (as_int gs) as [gz|]; [|by eauto].
  destruct (gz =? 0); [by eauto|]. cbn [mbind result_bind negb andb].
  destruct (py_iter objects) as [objs|]; [|by eauto].
  cbn [mbind result_bind]. intros Hobjs.
  destruct (scan_objects_not_ok gs objs
              (replicate (Z.to_nat (hz / gz)) (replicate (Z.to_nat (wz / gz)) 0),
               None, None) Hobjs) as [x ->].
  by eauto.
Qed.

Lemma not_number_as_int v : not_number v = true → as_int v = None.
Proof. by destruct v. Qed.

Lemma object_defect_not_ok obj : object_defect obj = true → object_ok obj = false.
Proof.
  unfold object_defect, no_number_at, absent, object_ok.
  destruct (getitem obj "y") as [y|]; [|done].
  destruct (getitem obj "x") as [x|]; [|done].
  destruct (getitem obj "type") as [ty|]; [|done].
  rewrite orb_false_r. intros [Hy|Hx]%orb_prop.
  - by rewrite (not_number_as_int _ Hy).
  - rewrite (not_number_as_int _ Hx). by destruct (as_int y).
Qed.

Lemma existsb_object_defect objs :
  existsb object_defect objs = true → forallb object_ok objs = false.
Proof.
  induction objs as [|obj objs IH]; [done|]. cbn [existsb forallb].
  intros [Hobj|Hrest]%orb_prop.
  - by rewrite (object_defect_not_ok _ Hobj).
  - rewrite (IH Hrest). apply andb_false_r.
Qed.

Lemma ill_shaped_not_well_shaped state :
  ill_shaped state = true → well_shaped state = false.
Proof.
  unfold ill_shaped, well_shaped, no_number_at, zero_at.
  destruct (getitem state "width") as [w|]; [|done].
  destruct (getitem state "height") as [h|]; [|by rewrite ?orb_true_r].
  destruct (getitem state "grid_size") as [gs|]; [|by rewrite ?orb_true_r].
  destruct (getitem state "objects") as [objects|]; [|done].
  destruct (not_number w) eqn:Hw; [by rewrite (not_number_as_int _ Hw)|].
  destruct (not_number h) eqn:Hh.
  { rewrite (not_number_as_int _ Hh). by destruct (as_int w). }
  destruct (not_number gs) eqn:Hgs.
  { rewrite (not_number_as_int _ Hgs). by destruct (as_int w), (as_int h). }
  cbn [orb].
  destruct (as_int w) as [wz|]; [|done]. destruct (as_int h) as [hz|]; [|done].
  destruct (as_int gs) as [gz|] eqn:Hgz; [|done].
  destruct (py_iter objects) as [objs|]; [|done].
  intros [Hzero|Hdefect]%orb_prop.
  - assert (gz =? 0 = true) as ->; [|done].
    destruct gs as [|[]|z| | |]; simplify_eq/=; done.
  - rewrite (existsb_object_defect _ Hdefect). apply andb_false_r.
Qed.

(** C8 (amended): a request that is not a JSON object or lacks a required
    field; whose [width], [height] or [grid_size] is [null], a string, an
    array or an object; whose [grid_size] is zero; whose [objects] cannot
    be iterated; or which holds an item without ["type"], or whose ["y"]
    or ["x"] is absent or is [null], a string, an array or an object,
    makes the handler raise, and the answer is the body of the [except]
    clause: status "error", message "Internal server error", code 500.
    There is no answer of its own for malformed input. *)
Theorem ill_shaped_request planner state :
  ill_shaped state = true →
  get_ai_move_with planner state = internal_error ∧
  status (get_ai_move_with planner state) = "error".
Proof.
  intros [x Hx]%ill_shaped_not_well_shaped%build_ill_shaped.
  unfold get_ai_move_with. rewrite Hx. done.
Qed.

Lemma ill_shaped_request_witness :
  let state := PDict [("width", PInt 640); ("height", PStr "480");
                      ("grid_size", PInt 32); ("objects", PList [])] in
  get_ai_move_with find_path state = internal_error ∧
  status (get_ai_move_with find_path state) = "error".
Proof.
  intros state. apply (ill_shaped_request find_path state). reflexivity.
Defined.

(** C8 (as stated, refuted): a board of width and height 0, and tiles of
    edge -32, are not rejected; both requests are answered "no_move". *)
Lemma nonpositive_sizes_accepted :
  let actors := [WorldObject "ai_enemy" 32 0; WorldObject "player" 0 0] in
  get_ai_move (encode (Request 0 0 32 actors)) = NoMove 32 0 ∧
  get_ai_move (encode (Request 64 64 (-32) actors)) = NoMove 32 0 ∧
  well_shaped (encode (Request 0 0 32 actors)) = true.
Proof. vm_compute. split_and!; reflexivity. Qed.

(** Missing fields, a string where a number belongs, and a zero tile size
    each end in the [except] clause. *)
Example ill_shaped_examples :
  get_ai_move (PDict [("width", PInt 640)]) = internal_error ∧
  get_ai_move PNone = internal_error ∧
  get_ai_move (encode (Request 640 480 0 [])) = internal_error ∧
  get_ai_move (PDict [("width", PInt 64); ("height", PInt 64);
                      ("grid_size", PInt 32);
                      ("objects", PList [PDict [("type", PStr "wall");
                                                ("x", PStr "a"); ("y", PInt 0)]])])
  = internal_error.
Proof. vm_compute. split_and!; reflexivity. Qed.

(** ** The handler always answers *)

Lemma get_ai_move_responds state : get_ai_move state ≠ NoResponse.
Proof.
  unfold get_ai_move, get_ai_move_with.
  destruct (build state) as [[gs [[g pl] ai]]|]; [|done].
  cbn [mbind result_bind respond].
  destruct pl as [player|]; [|done]. destruct ai as [enemy|]; [|done].
  pose proof (find_path_total directions g enemy player) as Htot.
  fold find_path in Htot. unfold py_mul.
  destruct (find_path g enemy player) as [p| | |]; [| |done|done].
  - destruct (1 <? len p).
    + destruct (p !! 1%nat) as [[??]|]; [|done].
      destruct (as_int gs); done.
    + destruct (as_int gs); done.
  - destruct (as_int gs); done.
Qed.

(** ** Which shortest path is returned *)

Section tie_break.
Context (g : grid) (s e : cell).

Lemma bfs_order_init : bfs_order g s [[s]] [].
Proof.
  split.
  - intros p v q ->%list_elem_of_singleton [= <-] Hw Hlen. left.
    destruct Hw as [|u v p Hw _ _]; [done|].
    apply walk_length in Hw. rewrite length_app in Hlen. simpl in Hlen. lia.
  - repeat constructor.
  - constructor.
  - intros b p Hb. by apply elem_of_nil in Hb.
Qed.

Lemma bfs_order_shift B : bfs_order g s [] B → bfs_order g s B [].
Proof.
  intros [Hmin HA HB Hx]. split.
  - intros p v q Hp. apply Hmin. by rewrite app_nil_r in Hp.
  - done.
  - constructor.
  - intros b p Hb. by apply elem_of_nil in Hb.
Qed.

(** The extension of the popped path by a fresh open neighbour is the
    first among the walks of its length to that neighbour. *)
Lemma new_path_first k p A B seen r c v q :
  bfs_inv g s e k (p :: A) B seen → bfs_order g s (p :: A) B →
  last p = Some (r, c) →
  is_open g v → v ∉ seen → adjacent (r, c) v →
  walk g s v q → length q = length (p ++ [v]) →
  q = p ++ [v] ∨ earlier (p ++ [v]) q.
Proof.
  intros Hinv Hord Hlast Hopen Hfresh Hadj Hq Hlen.
  destruct (bfs_inv_head _ _ _ _ _ _ _ _ _ _ Hinv Hlast) as (Hwalk & _ & _ & Hk).
  destruct Hinv as [_ HA _ _ _ _ Hcl _]. destruct Hord as [Hmin Hsorted _ _].
  rewrite length_app in Hlen. simpl in Hlen.
  destruct Hq as [|u' v q0 Hq0 Hadj' Hopen'].
  { apply walk_length in Hwalk. simpl in Hlen. lia. }
  rewrite length_app in Hlen. simpl in Hlen.
  assert (within g s k u') as Hu' by (exists q0; split; [done|lia]).
  destruct (Hcl u' v Hu' Hadj' Hopen') as [?|(p' & Hp' & Hlast')]; [done|].
  assert (q0 = p' ∨ earlier p' q0) as Hq0p'.
  { apply (Hmin p' u'); [set_solver|done|done|]. rewrite (HA p' Hp'). lia. }
  apply elem_of_cons in Hp' as [->|Hp'].
  - destruct Hq0p' as [->|Hearlier]; [by left|right; by constructor].
  - right. constructor.
    apply StronglySorted_cons in Hsorted as [Hall _].
    rewrite Forall_forall in Hall. specialize (Hall p' Hp').
    destruct Hq0p' as [->|Hearlier]; [done|by eapply earlier_trans].
Qed.

Lemma bfs_order_step k p A B seen r c seen' queue' :
  bfs_inv g s e k (p :: A) B seen → bfs_order g s (p :: A) B →
  last p = Some (r, c) →
  explore g e p r c directions seen (A ++ B) = Continue seen' queue' →
  ∃ B', queue' = A ++ B' ∧ bfs_inv g s e k A B' seen' ∧ bfs_order g s A B'.
Proof.
  intros Hinv Hord Hlast Hex.
  destruct (bfs_inv_step _ _ _ _ _ _ _ _ _ _ _ _ Hinv Hlast Hex) as (B' & HB' & Hinv').
  exists B'. split_and!; [done..|].
  apply explore_enqueues in Hex;
    [|rewrite directions_neighbours; apply NoDup_neighbours].
  rewrite directions_neighbours, HB', <- app_assoc in Hex.
  apply app_inv_head in Hex as ->.
  pose proof Hord as [Hmin HsA HsB Hx].
  apply StronglySorted_cons in HsA as [HpA HsA]. rewrite Forall_forall in HpA.
  split.
  - intros p' v q Hp' Hlast' Hq Hlen. rewrite app_assoc in Hp'.
    apply elem_of_app in Hp' as [Hp'|(w & -> & [[Hopen Hfresh] Hw]%list_elem_of_filter)%list_elem_of_fmap].
    + apply (Hmin p' v); [set_solver|done..].
    + rewrite last_snoc in Hlast'. injection Hlast' as <-.
      eapply new_path_first; try done.
      apply adjacent_offset. rewrite <- directions_neighbours in Hw.
      apply list_elem_of_fmap in Hw as (d & -> & Hd). eauto.
  - done.
  - apply StronglySorted_app_2; [|done|].
    + intros b n Hb (w & -> & _)%list_elem_of_fmap.
      destruct (Hx b p Hb) as (b0 & w0 & -> & Hb0); [left|]. by constructor.
    + eapply StronglySorted_fmap;
        [|apply StronglySorted_filter, (neighbours_sorted r c)].
      intros x y Hxy. simpl in Hxy. by eapply earlier_last.
  - intros b p' [Hb|(w & -> & _)%list_elem_of_fmap]%elem_of_app Hp'.
    + apply Hx; [done|by right].
    + exists p, w. split; [done|]. by apply HpA.
Qed.

Lemma bfs_first fuel k A B seen p :
  bfs_inv g s e k A B seen → bfs_order g s A B →
  bfs fuel g e directions seen (A ++ B) = Found p →
  ∀ q, walk g s e q → length q = length p → q = p ∨ earlier p q.
Proof.
  revert k A B seen.
  induction fuel as [|fuel IH]; intros k A B seen Hinv Hord; [done|].
  assert (∀ k p0 A B, bfs_inv g s e k (p0 :: A) B seen →
    bfs_order g s (p0 :: A) B →
    bfs (S fuel) g e directions seen ((p0 :: A) ++ B) = Found p →
    ∀ q, walk g s e q → length q = length p → q = p ∨ earlier p q) as Hcons.
  { clear k A B Hinv Hord. intros k p0 A B Hinv Hord. cbn [bfs app].
    destruct (last p0) as [[r c]|] eqn:Hlast; [|done].
    destruct (explore g e p0 r c directions seen (A ++ B))
      as [np|seen' queue'|x] eqn:Hex; [| |done].
    - intros [= <-] q Hq Hlen.
      apply explore_return in Hex as (-> & Hopen & Hfresh & d & Hd & Hv).
      eapply new_path_first; try done.
      apply adjacent_offset. eauto.
    - destruct (bfs_order_step _ _ _ _ _ _ _ _ _ Hinv Hord Hlast Hex)
        as (B' & -> & Hinv' & Hord').
      by eapply IH. }
  destruct A as [|p0 A]; [|by eapply Hcons].
  destruct B as [|p0 B]; [done|].
  apply bfs_inv_shift in Hinv. apply bfs_order_shift in Hord. simpl app.
  rewrite <- (app_nil_r (p0 :: B)). by eapply Hcons.
Qed.

(** Among the shortest walks from [start] to [end], the planner returns
    the one that is first in the order of [directions]. *)
Lemma find_path_first p q :
  find_path g s e = Found p → walk g s e q → length q = length p →
  q = p ∨ earlier p q.
Proof.
  unfold find_path, find_path_with. case_bool_decide as Hse.
  - intros [= <-] Hq Hlen. left. subst e.
    destruct Hq as [|u v q0 Hq0 _ _]; [done|].
    apply walk_length in Hq0. rewrite length_app in Hlen. simpl in Hlen. lia.
  - intros Hfp. eapply (bfs_first (budget g) 1 [[s]] []); [|apply bfs_order_init|done].
    by apply bfs_inv_init.
Qed.
End tie_break.

(** C3 (amended): the planner explores the neighbours of the popped cell
    [(r, c)] in the fixed order +col, -col, +row, -row.  One pass appends
    to the queue the extensions of the popped path by its open, unseen
    neighbours in that order; [rank] numbers the four steps in that order;
    and among the walks from [start] to [end] that are as long as the
    returned path, the returned one is the first: where another one parts
    from it, the returned path takes the step of smaller rank. *)
Theorem neighbour_order :
  (∀ g e p r c seen queue seen' queue',
     explore g e p r c directions seen queue = Continue seen' queue' →
     queue' = queue ++ ((λ v, p ++ [v]) <$>
                filter (λ v, is_open g v ∧ v ∉ seen)
                       [(r, c + 1); (r, c - 1); (r + 1, c); (r - 1, c)])) ∧
  (∀ r c, rank (r, c) (r, c + 1) = 0%nat ∧ rank (r, c) (r, c - 1) = 1%nat ∧
          rank (r, c) (r + 1, c) = 2%nat ∧ rank (r, c) (r - 1, c) = 3%nat) ∧
  (∀ g s e p q,
     find_path g s e = Found p → walk g s e q → length q = length p →
     q = p ∨ earlier p q).
Proof.
  split_and!.
  - intros g e p r c seen queue seen' queue' Hex%explore_enqueues.
    + by rewrite directions_neighbours in Hex.
    + rewrite directions_neighbours. apply NoDup_neighbours.
  - apply rank_neighbours.
  - apply find_path_first.
Qed.

Lemma neighbour_order_witness :
  [[(1, 1); (1, 2)]; [(1, 1); (1, 0)]; [(1, 1); (2, 1)]; [(1, 1); (0, 1)]]
  = [] ++ ((λ v, [(1, 1)] ++ [v]) <$>
       filter (λ v, is_open open3 v ∧ v ∉ ({[(1, 1)]} : gset (Z * Z)))
              [(1, 1 + 1); (1, 1 - 1); (1 + 1, 1); (1 - 1, 1)]) ∧
  ([(0, 0); (1, 0); (1, 1)] = [(0, 0); (0, 1); (1, 1)] ∨
   earlier [(0, 0); (0, 1); (1, 1)] [(0, 0); (1, 0); (1, 1)]).
Proof.
  split.
  - apply (proj1 neighbour_order open3 (0, 0) [(1, 1)] 1 1 {[(1, 1)]} []
             ({[(1, 1)]} ∪ {[(1, 2)]} ∪ {[(1, 0)]} ∪ {[(2, 1)]} ∪ {[(0, 1)]})).
    vm_compute. reflexivity.
  - apply (proj2 (proj2 neighbour_order) open2 (0, 0) (1, 1)).
    + vm_compute. reflexivity.
    + apply (steps_ok_walk_to open2 (0, 0) (1, 1) [(1, 0); (1, 1)]);
        vm_compute; reflexivity.
    + reflexivity.
Defined.

(** C3 (as stated, refuted): with two shortest routes from (0,0) to (1,1)
    on the open 2 x 2 grid, the planner returns the one that moves along
    the row first (+col); exploring in the order +row, -row, +col, -col
    would return the one that moves down the column first. *)
Lemma claimed_order_refuted :
  find_path open2 (0, 0) (1, 1) = Found [(0, 0); (0, 1); (1, 1)] ∧
  find_path_with claimed_directions open2 (0, 0) (1, 1)
    = Found [(0, 0); (1, 0); (1, 1)] ∧
  find_path open2 (0, 0) (1, 1)
    ≠ find_path_with claimed_directions open2 (0, 0) (1, 1).
Proof. vm_compute. split_and!; [reflexivity..|discriminate]. Qed.

(** ** Further properties of the planner *)

Lemma walk_open g s e p i v :
  walk g s e p → p !! S i = Some v → is_open g v.
Proof.
  intros Hw. revert i v. induction Hw as [|u w p Hw IH Hadj Hopen]; intros i v Hv.
  - by destruct i.
  - destruct (decide (S i < length p)%nat) as [Hlt|Hge].
    + rewrite lookup_app_l in Hv by lia. eauto.
    + assert (S i = length p) as Hi.
      { apply lookup_lt_Some in Hv. rewrite length_app in Hv. simpl in Hv. lia. }
      rewrite Hi, list_lookup_middle in Hv by done. by injection Hv as <-.
Qed.

Lemma walk_end_open g s e p : walk g s e p → is_open g s → is_open g e.
Proof. by destruct 1. Qed.

Lemma adjacent_sym a b : adjacent a b → adjacent b a.
Proof. unfold adjacent. lia. Qed.

Lemma walk_reverse g s e p :
  walk g s e p → is_open g s → walk g e s (reverse p).
Proof.
  intros Hw Hs. induction Hw as [|u v p Hw IH Hadj Hopen]; [constructor|].
  rewrite reverse_snoc. eapply walk_cons; [exact IH|by apply adjacent_sym|].
  by eapply walk_end_open.
Qed.

Lemma walk_tail g s e p :
  walk g s e p → ∀ n rest, p = s :: n :: rest → walk g n e (n :: rest).
Proof.
  induction 1 as [|u v p Hw IH Hadj Hopen]; intros n rest Heq; [done|].
  destruct p as [|s' [|n' rest']].
  - by apply walk_length in Hw.
  - injection Heq as -> <- <-. constructor.
  - injection Heq as -> -> <-.
    apply (walk_step g n u v (n :: rest')); [|done..]. by eapply IH.
Qed.

(** X1: a returned path never leaves the grid and never crosses a wall:
    every cell after the first lies inside the grid and holds 0. *)
Theorem find_path_on_open_cells g s e p i v :
  find_path g s e = Found p → p !! S i = Some v → is_open g v.
Proof.
  intros Hfp Hv. pose proof (find_path_ok g s e) as Hok. rewrite Hfp in Hok.
  destruct Hok as (Hw & _). by eapply walk_open.
Qed.

Lemma find_path_on_open_cells_witness : is_open open3 (1, 2).
Proof.
  apply (find_path_on_open_cells open3 (0, 0) (2, 2)
           [(0, 0); (0, 1); (0, 2); (1, 2); (2, 2)] 2 (1, 2));
    vm_compute; reflexivity.
Defined.

(** X2: when some region holds [start], does not hold [end], and no open
    cell borders it from outside, the planner reports that there is no
    path. *)
Theorem find_path_enclosed g s e (X : Z * Z → Prop) :
  rectangular g → X s → ¬ X e →
  (∀ u v, X u → adjacent u v → is_open g v → X v) →
  find_path g s e = NoPath.
Proof.
  intros Hrect Hs He Hcl. apply find_path_unreachable; [done|].
  intros [p Hw]. apply He. clear He. induction Hw; eauto.
Qed.

Lemma find_path_enclosed_witness : find_path [[0; 1; 0]] (0, 0) (0, 2) = NoPath.
Proof.
  apply (find_path_enclosed [[0; 1; 0]] (0, 0) (0, 2) (λ v, v = (0, 0))).
  - repeat constructor.
  - reflexivity.
  - discriminate.
  - intros u v -> (d & Hd & ->)%adjacent_offset Hopen.
    unfold directions in Hd.
    repeat (apply elem_of_cons in Hd as [->|Hd]);
      try (by apply elem_of_nil in Hd);
      vm_compute in Hopen; destruct Hopen as (? & ? & ?); intuition congruence.
Defined.

Lemma blocked_unreachable g s e : s ≠ e → ¬ is_open g e → ¬ reachable g s e.
Proof. intros Hne Hblocked [p Hw]. by destruct Hw. Qed.

(** X3: a target cell that is a wall or lies outside the grid is never
    reached from another cell. *)
Theorem find_path_blocked_target g s e :
  rectangular g → s ≠ e → ¬ is_open g e → find_path g s e = NoPath.
Proof.
  intros Hrect Hne Hblocked. apply find_path_unreachable; [done|].
  by apply blocked_unreachable.
Qed.

Lemma find_path_blocked_target_witness :
  find_path [[0; 0; 1]] (0, 0) (0, 2) = NoPath.
Proof.
  apply (find_path_blocked_target [[0; 0; 1]] (0, 0) (0, 2)).
  - repeat constructor.
  - discriminate.
  - vm_compute. intros (_ & _ & ?). discriminate.
Defined.

(** X4: between two open cells the path found in one direction is as
    long as the path found in the other. *)
Theorem find_path_symmetric_length g s e p :
  rectangular g → is_open g s → is_open g e →
  find_path g s e = Found p →
  ∃ p', find_path g e s = Found p' ∧ length p' = length p.
Proof.
  intros Hrect Hs He Hfp.
  pose proof (find_path_ok g s e) as Hok. rewrite Hfp in Hok.
  destruct Hok as (Hw & _ & Hmin).
  pose proof (find_path_ok g e s) as Hok'.
  destruct (find_path g e s) as [p'| |x|] eqn:Hfp'.
  - destruct Hok' as (Hw' & _ & Hmin'). exists p'. split; [done|].
    specialize (Hmin' _ (walk_reverse _ _ _ _ Hw Hs)).
    specialize (Hmin _ (walk_reverse _ _ _ _ Hw' He)).
    rewrite length_reverse in Hmin, Hmin'. lia.
  - destruct Hok'. exists (reverse p). by apply walk_reverse.
  - by apply find_path_no_raise in Hfp'.
  - by apply find_path_total in Hfp'.
Qed.

Lemma find_path_symmetric_length_witness :
  ∃ p', find_path open3 (2, 2) (0, 0) = Found p' ∧
        length p' = length [(0, 0); (0, 1); (0, 2); (1, 2); (2, 2)].
Proof.
  apply (find_path_symmetric_length open3 (0, 0) (2, 2)).
  - repeat constructor.
  - vm_compute. repeat split; discriminate.
  - vm_compute. repeat split; discriminate.
  - vm_compute. reflexivity.
Defined.

(** X5: taking the step the planner recommends brings the pursuer one
    step closer: from the second cell of a found path, the planner finds
    a path one cell shorter. *)
Theorem find_path_step_closer g s e p n :
  rectangular g → find_path g s e = Found p → p !! 1%nat = Some n →
  ∃ p', find_path g n e = Found p' ∧ S (length p') = length p.
Proof.
  intros Hrect Hfp Hn.
  pose proof (find_path_ok g s e) as Hok. rewrite Hfp in Hok.
  destruct Hok as (Hw & _ & Hmin).
  pose proof (walk_head _ _ _ _ Hw) as Hhead.
  destruct p as [|s' [|n' rest]]; [done..|]. simpl in Hhead, Hn.
  injection Hhead as ->. injection Hn as ->.
  pose proof (walk_tail _ _ _ _ Hw n rest eq_refl) as Htail.
  assert (adjacent s n) as Hadj by (by eapply (walk_chain g s e _ 0%nat)).
  assert (is_open g n) as Hopen by (by eapply (walk_open g s e _ 0%nat)).
  pose proof (find_path_ok g n e) as Hok'.
  destruct (find_path g n e) as [p'| |x|] eqn:Hfp'.
  - destruct Hok' as (Hw' & _ & Hmin'). exists p'. split; [done|].
    specialize (Hmin' _ Htail).
    specialize (Hmin _ (walk_cons _ _ _ _ _ Hw' Hadj Hopen)).
    simpl in *. lia.
  - destruct Hok'. by exists (n :: rest).
  - by apply find_path_no_raise in Hfp'.
  - by apply find_path_total in Hfp'.
Qed.

Lemma find_path_step_closer_witness :
  ∃ p', find_path open3 (0, 1) (2, 2) = Found p' ∧
        S (length p') = length [(0, 0); (0, 1); (0, 2); (1, 2); (2, 2)].
Proof.
  apply (find_path_step_closer open3 (0, 0) (2, 2)).
  - repeat constructor.
  - vm_compute. reflexivity.
  - reflexivity.
Defined.

(** X6: a returned path has at most one cell more than the grid has
    positions. *)
Theorem find_path_length_bound g s e p :
  find_path g s e = Found p →
  (length p ≤ length g * length (default [] (g !! 0%nat)) + 1)%nat.
Proof.
  intros Hfp. pose proof (find_path_ok g s e) as Hok. rewrite Hfp in Hok.
  destruct Hok as (Hw & Hnd & _).
  destruct p as [|s' rest]; [simpl; lia|].
  apply NoDup_cons in Hnd as [_ Hnd].
  assert (rest ⊆+ cells g) as Hsub.
  { apply NoDup_submseteq; [done|]. intros v [i Hi]%list_elem_of_lookup.
    apply is_open_cells. by eapply (walk_open g s e (s' :: rest) i). }
  apply submseteq_length in Hsub.
  unfold cells, width_of, len in Hsub.
  rewrite length_prod, !length_seqZ in Hsub. simpl. lia.
Qed.

Lemma find_path_length_bound_witness :
  (length ([(0, 0); (0, 1); (0, 2); (1, 2); (2, 2)]%Z : list (Z * Z))
   ≤ length open3 * length (default [] (open3 !! 0%nat)) + 1)%nat.
Proof.
  apply (find_path_length_bound open3 (0, 0) (2, 2)). vm_compute. reflexivity.
Defined.

Lemma passable_raise g seen nr nc x :
  passable g seen nr nc = Raise x → x = IndexError.
Proof.
  unfold passable. repeat case_match; congruence.
Qed.

Lemma explore_throw g e p r c dirs seen queue x :
  explore g e p r c dirs seen queue = Throw x → x = IndexError.
Proof.
  revert seen queue. induction dirs as [|[dr dc] dirs IH]; intros seen queue; [done|].
  cbn [explore].
  destruct (passable g seen (r + dr) (c + dc)) as [[|]|y] eqn:Hp.
  - case_bool_decide; [done|apply IH].
  - apply IH.
  - intros [= <-]. by eapply passable_raise.
Qed.

Lemma bfs_raised fuel g e dirs seen queue x :
  Forall (λ p, p ≠ []) queue →
  bfs fuel g e dirs seen queue = Raised x → x = IndexError.
Proof.
  revert seen queue. induction fuel as [|fuel IH]; intros seen queue Hne; [done|].
  destruct queue as [|p rest]; [done|]. cbn [bfs].
  apply Forall_cons in Hne as [Hp Hrest].
  destruct (last p) as [[r c]|] eqn:Hlast; [|by apply last_None in Hlast].
  destruct (explore g e p r c dirs seen rest) as [?|seen' queue'|y] eqn:Hex; [done| |].
  - apply explore_continue in Hex as (new & _ & -> & _). apply IH.
    apply Forall_app. split; [done|]. apply Forall_fmap, Forall_true.
    intros v. simpl. by destruct p.
  - intros [= <-]. by eapply explore_throw.
Qed.

(** X7: the planner raises only on a grid with rows of different lengths,
    and what it raises then is [IndexError]. *)
Theorem find_path_raises_on_ragged_only g s e x :
  find_path g s e = Raised x → x = IndexError ∧ ¬ rectangular g.
Proof.
  intros Hfp. split.
  - unfold find_path, find_path_with in Hfp. case_bool_decide; [done|].
    eapply bfs_raised; [|exact Hfp]. by repeat constructor.
  - intros Hrect. by apply find_path_no_raise in Hfp.
Qed.

Lemma find_path_raises_on_ragged_only_witness :
  IndexError = IndexError ∧ ¬ rectangular [[0; 0]; [0]].
Proof.
  apply (find_path_raises_on_ragged_only [[0; 0]; [0]] (0, 0) (5, 5)).
  vm_compute. reflexivity.
Defined.

(** The guard in terms of the size of the grid and the value at the cell. *)
Lemma passable_cell_at g seen nr nc :
  passable g seen nr nc =
    if negb ((0 <=? nr) && (nr <? len g)) then Ok false
    else if negb ((0 <=? nc) && (nc <? width_of g)) then Ok false
    else match cell_at g (nr, nc) with
         | None => Raise IndexError
         | Some v => if negb (v =? 0) then Ok false
                     else Ok (bool_decide ((nr, nc) ∉ seen))
         end.
Proof.
  unfold passable, width_of, cell_at. cbn [fst snd].
  destruct (0 <=? nr) eqn:H1, (nr <? len g) eqn:H2; cbn [andb negb]; try done.
  destruct (g !! 0%nat) as [row0|] eqn:H0.
  - simpl. destruct (negb _); [done|].
    by destruct (g !! Z.to_nat nr) as [row|].
  - apply lookup_ge_None in H0. unfold len in H2. lia.
Qed.

Lemma set_cell_length g v x : length (set_cell g v x) = length g.
Proof.
  unfold set_cell. repeat case_match; try done. apply length_insert.
Qed.

Lemma set_cell_width g v x : width_of (set_cell g v x) = width_of g.
Proof.
  unfold set_cell, width_of. destruct (_ && _); [|done].
  destruct (g !! Z.to_nat v.1) as [row|] eqn:Hrow; [|done].
  rewrite list_lookup_insert. case_decide as Hi; [|done].
  destruct Hi as [Hi _]. rewrite Hi in Hrow. rewrite Hrow. simpl.
  unfold len. by rewrite length_insert.
Qed.

Lemma cell_at_set_cell_ne g s x v :
  0 ≤ v.1 → 0 ≤ v.2 → v ≠ s → cell_at (set_cell g s x) v = cell_at g v.
Proof.
  intros H1 H2 Hne. unfold set_cell, cell_at.
  destruct (0 <=? s.1) eqn:Hs1, (0 <=? s.2) eqn:Hs2; cbn [andb]; try done.
  destruct (g !! Z.to_nat s.1) as [row|] eqn:Hrow; [|done].
  destruct (decide (Z.to_nat s.1 = Z.to_nat v.1)) as [Heq|Hneq].
  - rewrite <- Heq, Hrow.
    rewrite list_lookup_insert_eq by (by eapply lookup_lt_Some). simpl.
    apply list_lookup_insert_ne. intros Heq2. apply Hne.
    destruct v, s. simpl in *. f_equal; lia.
  - by rewrite list_lookup_insert_ne.
Qed.

Lemma cell_at_set_cell_eq g s x :
  0 ≤ s.1 → 0 ≤ s.2 →
  cell_at (set_cell g s x) s = (λ _, x) <$> cell_at g s.
Proof.
  intros H1 H2. unfold set_cell, cell_at.
  rewrite (proj2 (Z.leb_le 0 _) H1), (proj2 (Z.leb_le 0 _) H2). cbn [andb].
  destruct (g !! Z.to_nat s.1) as [row|] eqn:Hrow; [|by rewrite Hrow].
  rewrite list_lookup_insert_eq by (by eapply lookup_lt_Some). simpl.
  rewrite list_lookup_insert. case_decide as Hj.
  - destruct (lookup_lt_is_Some_2 row (Z.to_nat s.2)) as [y ->]; [lia|done].
  - destruct (row !! Z.to_nat s.2) eqn:Hy; [|done].
    apply lookup_lt_Some in Hy. lia.
Qed.

Lemma passable_set_cell g s x seen nr nc :
  s ∈ seen → passable (set_cell g s x) seen nr nc = passable g seen nr nc.
Proof.
  intros Hs. rewrite !passable_cell_at. unfold len.
  rewrite set_cell_length, set_cell_width.
  destruct (0 <=? nr) eqn:H1, (nr <? _) eqn:H2; cbn [andb negb]; try done.
  destruct (0 <=? nc) eqn:H3, (nc <? _) eqn:H4; cbn [andb negb]; try done.
  destruct (decide ((nr, nc) = s)) as [<-|Hne].
  - rewrite cell_at_set_cell_eq by (simpl; lia).
    rewrite (bool_decide_eq_false_2 ((nr, nc) ∉ seen)) by (by intros ?).
    destruct (cell_at g (nr, nc)) as [v|]; [|done]. simpl.
    by destruct (negb (x =? 0)), (negb (v =? 0)).
  - by rewrite cell_at_set_cell_ne by (simpl; lia || done).
Qed.

Lemma explore_set_cell g s x e p r c dirs seen queue :
  s ∈ seen →
  explore (set_cell g s x) e p r c dirs seen queue
  = explore g e p r c dirs seen queue.
Proof.
  revert seen queue. induction dirs as [|[dr dc] dirs IH]; intros seen queue Hs; [done|].
  cbn [explore]. rewrite passable_set_cell by done.
  destruct (passable g seen (r + dr) (c + dc)) as [[|]|]; [|by apply IH|done].
  case_bool_decide; [done|]. apply IH. set_solver.
Qed.

Lemma bfs_set_cell fuel g s x e dirs seen queue :
  s ∈ seen →
  bfs fuel (set_cell g s x) e dirs seen queue = bfs fuel g e dirs seen queue.
Proof.
  revert seen queue. induction fuel as [|fuel IH]; intros seen queue Hs; [done|].
  destruct queue as [|p rest]; [done|]. cbn [bfs].
  destruct (last p) as [[r c]|]; [|done].
  rewrite explore_set_cell by done.
  destruct (explore g e p r c dirs seen rest) as [?|seen' queue'|?] eqn:Hex; [done| |done].
  apply IH. apply explore_continue in Hex as (new & -> & _). set_solver.
Qed.

(** X8: the result of the planner does not depend on the value held in
    the cell it starts from: writing any value there, a wall included,
    leaves its result unchanged.  (The cell may still be read, when a
    neighbour looks back at it; what is read there decides nothing,
    since the cell is in [seen] from the start.) *)
Theorem find_path_start_value_irrelevant (g : grid) (s e : cell) (x : Z) :
  find_path (set_cell g s x) s e = find_path g s e.
Proof.
  unfold find_path, find_path_with. case_bool_decide; [done|].
  assert (budget (set_cell g s x) = budget g) as ->.
  { unfold budget. rewrite set_cell_length.
    pose proof (set_cell_width g s x) as Hw. unfold width_of, len in Hw.
    apply Nat2Z.inj in Hw. by rewrite Hw. }
  apply bfs_set_cell. set_solver.
Qed.

(** A pursuer standing on a wall still finds its way out. *)
Example find_path_from_wall :
  find_path [[1; 0; 0]] (0, 0) (0, 2) = Found [(0, 0); (0, 1); (0, 2)].
Proof. vm_compute. reflexivity. Qed.

(** ** Further properties of the move handler *)

(** The object loop does two independent things: it marks the grid, and it
    records the last object of each actor type. *)
Lemma scan_objects_split gs objs g pl ai :
  gs ≠ 0 →
  scan_objects (PInt gs) (encode_object <$> objs) (g, pl, ai) =
    g' ← mark_all gs objs g;
    Ok (g', from_option Some pl (actor "player" gs objs),
            from_option Some ai (actor "ai_enemy" gs objs)).
Proof.
  intros Hgs. revert g pl ai. induction objs as [|o objs IH]; intros g pl ai; [done|].
  scan_step. cbn [mark_all]. rewrite !actor_cons.
  destruct (blocks o) eqn:Hb.
  - destruct (blocks_type o Hb) as [Hp Ha]. rewrite !decide_False by done.
    destruct (mark g _ _) as [g1|]; [|done]. cbn [mbind result_bind].
    etrans; [apply IH|].
    by destruct (actor "player" gs objs), (actor "ai_enemy" gs objs).
  - destruct (String.eqb_spec (obj_type o) "player") as [Hp|Hp].
    + etrans; [apply IH|]. rewrite Hp.
      rewrite decide_True by done. rewrite decide_False by done.
      by destruct (actor "player" gs objs), (actor "ai_enemy" gs objs).
    + destruct (String.eqb_spec (obj_type o) "ai_enemy") as [Ha|Ha].
      * etrans; [apply IH|]. rewrite decide_False by done.
        rewrite decide_True by done.
        by destruct (actor "player" gs objs), (actor "ai_enemy" gs objs).
      * etrans; [apply IH|]. rewrite !decide_False by done.
        by destruct (actor "player" gs objs), (actor "ai_enemy" gs objs).
Qed.

Lemma mark_all_app gs l1 l2 g :
  mark_all gs (l1 ++ l2) g = g' ← mark_all gs l1 g; mark_all gs l2 g'.
Proof.
  revert g. induction l1 as [|o l1 IH]; intros g; [done|].
  cbn [app mark_all]. destruct (blocks o); [|apply IH].
  destruct (mark g _ _) as [g1|]; [|done]. apply IH.
Qed.

Lemma actor_app ty gs l1 l2 :
  actor ty gs (l1 ++ l2) =
    match actor ty gs l2 with
    | Some v => Some v
    | None => actor ty gs l1
    end.
Proof.
  induction l1 as [|o l1 IH]; [cbn [app]; by destruct (actor ty gs l2)|].
  cbn [app]. rewrite !actor_cons, IH.
  by destruct (actor ty gs l2), (actor ty gs l1).
Qed.

(** X9: only the last object of each actor type counts: a "player" or
    "ai_enemy" object that is followed by another of its type can be
    removed without changing the answer. *)
Theorem earlier_actor_ignored w h gs l1 o l2 :
  obj_type o = "player" ∨ obj_type o = "ai_enemy" →
  (∃ o', o' ∈ l2 ∧ obj_type o' = obj_type o) →
  get_ai_move (encode (Request w h gs (l1 ++ o :: l2)))
  = get_ai_move (encode (Request w h gs (l1 ++ l2))).
Proof.
  intros Hty (o' & Hin & Hsame).
  assert (blocks o = false) as Hb.
  { unfold blocks. by destruct Hty as [-> | ->]. }
  assert (∀ ty, (ty = "player" ∨ ty = "ai_enemy") →
            actor ty gs (l1 ++ o :: l2) = actor ty gs (l1 ++ l2)) as Hactor.
  { intros ty Hcase. rewrite !actor_app, actor_cons.
    destruct (actor ty gs l2) as [v|] eqn:Hl2; [done|].
    destruct (decide (obj_type o = ty)) as [<-|]; [|done].
    pose proof (proj1 (actor_None _ _ _) Hl2 o' Hin). done. }
  unfold get_ai_move, get_ai_move_with. rewrite !build_encode.
  cbn [req_grid_size]. destruct (Z.eqb_spec gs 0) as [->|Hgs]; [done|].
  assert (scan_request (Request w h gs (l1 ++ o :: l2))
          = scan_request (Request w h gs (l1 ++ l2))) as ->; [|done].
  unfold scan_request, fresh_grid. cbn [req_objects req_grid_size req_width req_height].
  rewrite !scan_objects_split by done.
  rewrite !Hactor by auto. rewrite !mark_all_app. cbn [mark_all]. by rewrite Hb.
Qed.

Lemma earlier_actor_ignored_witness :
  get_ai_move (encode (Request 64 64 32
    ([WorldObject "player" 0 0] ++ WorldObject "ai_enemy" 0 32
       :: [WorldObject "ai_enemy" 32 32])))
  = get_ai_move (encode (Request 64 64 32
    ([WorldObject "player" 0 0] ++ [WorldObject "ai_enemy" 32 32]))).
Proof.
  apply (earlier_actor_ignored 64 64 32).
  - by right.
  - exists (WorldObject "ai_enemy" 32 32). split; [apply list_elem_of_here|reflexivity].
Defined.

Lemma py_index_lt n i k : py_index n i = Some k → (k < n)%nat.
Proof.
  unfold py_index.
  destruct (0 <=? i) eqn:H1, (i <? Z.of_nat n) eqn:H2; cbn [andb];
    try (intros [= <-]; lia);
    destruct (- Z.of_nat n <=? i) eqn:H3, (i <? 0) eqn:H4; cbn [andb];
    try done; intros [= <-]; lia.
Qed.

Lemma mark_cells rows cols g r c g1 :
  shape rows cols g → mark g r c = Ok g1 →
  ∃ i0 j0, py_index rows r = Some i0 ∧ py_index cols c = Some j0 ∧
    ∀ i j, (g1 !! i ≫= λ row, row !! j) =
           if decide (i = i0 ∧ j = j0) then Some 1
           else (g !! i ≫= λ row, row !! j).
Proof.
  intros [Hlen Hrows]. unfold mark. rewrite Hlen.
  destruct (py_index rows r) as [i0|] eqn:Hi0; [|done].
  destruct (g !! i0) as [row|] eqn:Hrow; [|done].
  rewrite Forall_forall in Hrows.
  rewrite (Hrows row) by (by eapply list_elem_of_lookup_2).
  destruct (py_index cols c) as [j0|] eqn:Hj0; [|done].
  intros [= <-]. exists i0, j0. split_and!; [done..|]. intros i j.
  apply py_index_lt in Hj0.
  assert (length row = cols) as Hrowlen
    by (apply Hrows; by eapply list_elem_of_lookup_2).
  pose proof (lookup_lt_Some _ _ _ Hrow) as Hi0lt.
  destruct (decide (i = i0)) as [->|Hi].
  - rewrite list_lookup_insert_eq by done. rewrite Hrow. simpl.
    destruct (decide (j = j0)) as [->|Hj].
    + rewrite decide_True by done. apply list_lookup_insert_eq. lia.
    + rewrite decide_False by naive_solver. by apply list_lookup_insert_ne.
  - rewrite list_lookup_insert_ne by done. by rewrite decide_False by naive_solver.
Qed.

Lemma mark_all_shape rows cols gs objs g g' :
  shape rows cols g → mark_all gs objs g = Ok g' → shape rows cols g'.
Proof.
  revert g. induction objs as [|o objs IH]; intros g Hshape; cbn [mark_all].
  - by intros [= <-].
  - destruct (blocks o); [|by apply IH].
    destruct (mark g _ _) as [g1|] eqn:Hmark; [|done].
    apply IH. by eapply mark_shape.
Qed.

(** After the loop a position holds 1 when some "wall" or "enemy" object
    addressed it, and what it held before otherwise. *)
Lemma mark_all_cells rows cols gs objs g g' i j :
  shape rows cols g → mark_all gs objs g = Ok g' →
  (g' !! i ≫= λ row, row !! j) =
    if existsb (marks rows cols gs i j) objs then Some 1
    else (g !! i ≫= λ row, row !! j).
Proof.
  revert g. induction objs as [|o objs IH]; intros g Hshape; cbn [mark_all existsb].
  - by intros [= <-].
  - unfold marks at 1. destruct (blocks o); cbn [andb orb]; [|by apply IH].
    destruct (mark g _ _) as [g1|] eqn:Hmark; [|done].
    cbn [mbind result_bind]. intros Hrest.
    rewrite (IH g1) by (done || by eapply mark_shape).
    destruct (mark_cells _ _ _ _ _ _ Hshape Hmark) as (i0 & j0 & -> & -> & Hcells).
    rewrite Hcells. destruct (existsb _ objs); [by rewrite orb_true_r|].
    rewrite orb_false_r. destruct (decide (i = i0 ∧ j = j0)) as [[-> ->]|Hne].
    + by rewrite !bool_decide_eq_true_2.
    + destruct (decide (i0 = i)) as [->|].
      * rewrite (bool_decide_eq_false_2 (Some j0 = Some j)); [by rewrite andb_false_r|].
        intros [= ->]. naive_solver.
      * rewrite (bool_decide_eq_false_2 (Some i0 = Some i)); [done|]. by intros [= ->].
Qed.

(** X10: after a completed set-up the grid has [height // grid_size] rows
    of [width // grid_size] columns, and a position holds 1 exactly when
    some "wall" or "enemy" object addresses it (by its row and column, or
    through a negative index counted from the end), and 0 otherwise. *)
Theorem grid_marks q gs' g pl ai :
  build (encode q) = Ok (gs', (g, pl, ai)) →
  let rows := Z.to_nat (req_height q / req_grid_size q) in
  let cols := Z.to_nat (req_width q / req_grid_size q) in
  shape rows cols g ∧
  ∀ r c, 0 ≤ r < Z.of_nat rows → 0 ≤ c < Z.of_nat cols →
    cell_at g (r, c) =
      Some (if existsb (marks rows cols (req_grid_size q) (Z.to_nat r) (Z.to_nat c))
                       (req_objects q)
            then 1 else 0).
Proof.
  intros Hb rows cols.
  destruct (build_encode_Ok _ _ _ _ _ Hb) as (Hgs & _ & Hscan & _).
  unfold scan_request in Hscan. rewrite scan_objects_split in Hscan by done.
  destruct (mark_all _ _ _) as [g1|] eqn:Hmarks; [|done].
  injection Hscan as -> _ _.
  pose proof (shape_fresh_grid q) as Hshape. split.
  - by eapply mark_all_shape.
  - intros r c Hr Hc. unfold cell_at. cbn [fst snd].
    rewrite (mark_all_cells _ _ _ _ _ _ _ _ Hshape Hmarks).
    fold rows cols. destruct (existsb _ _); [done|].
    unfold fresh_grid. fold rows cols.
    rewrite lookup_replicate_2 by lia. simpl. by rewrite lookup_replicate_2 by lia.
Qed.

Lemma grid_marks_witness :
  let q := Request 64 64 32 [WorldObject "wall" 32 0; WorldObject "player" 0 0;
                             WorldObject "enemy" (-32) 32] in
  shape 2 2 [[0; 1]; [0; 1]] ∧
  ∀ r c, 0 ≤ r < Z.of_nat 2 → 0 ≤ c < Z.of_nat 2 →
    cell_at [[0; 1]; [0; 1]] (r, c) =
      Some (if existsb (marks 2 2 32 (Z.to_nat r) (Z.to_nat c)) (req_objects q)
            then 1 else 0).
Proof.
  intros q.
  apply (grid_marks q (PInt 32) [[0; 1]; [0; 1]] (Some (0, 0)) None).
  vm_compute. reflexivity.
Defined.

Lemma mark_all_recognised gs objs g :
  mark_all gs (filter (λ o, recognised o = true) objs) g = mark_all gs objs g.
Proof.
  revert g. induction objs as [|o objs IH]; intros g; [done|].
  rewrite filter_cons. destruct (decide (recognised o = true)) as [Hr|Hr].
  - cbn [mark_all]. destruct (blocks o); [|apply IH].
    destruct (mark g _ _); [apply IH|done].
  - cbn [mark_all]. destruct (blocks o) eqn:Hb; [|apply IH].
    destruct Hr. unfold recognised. by rewrite Hb.
Qed.

Lemma actor_recognised ty gs objs :
  ty = "player" ∨ ty = "ai_enemy" →
  actor ty gs (filter (λ o, recognised o = true) objs) = actor ty gs objs.
Proof.
  intros Hty. unfold actor. f_equal. f_equal.
  rewrite list_filter_filter. apply list_filter_iff. intros o.
  split; [by intros [? _]|]. intros Ho. split; [done|].
  unfold recognised. rewrite Ho. destruct Hty as [-> | ->]; simpl;
    by rewrite ?orb_true_r.
Qed.

Lemma find_path_same_cell_eq g s : find_path g s s = Found [s].
Proof. unfold find_path, find_path_with. by rewrite bool_decide_eq_true_2. Qed.

(** X11: objects whose type is none of "wall", "enemy", "player" and
    "ai_enemy" play no part: two requests that agree once such objects
    are left out lead to the same grid, the same actors and the same
    answer. *)
Theorem unrecognised_objects_ignored q1 q2 :
  req_width q1 = req_width q2 → req_height q1 = req_height q2 →
  req_grid_size q1 = req_grid_size q2 →
  filter (λ o, recognised o = true) (req_objects q1)
  = filter (λ o, recognised o = true) (req_objects q2) →
  build (encode q1) = build (encode q2) ∧
  get_ai_move (encode q1) = get_ai_move (encode q2).
Proof.
  intros Hw Hh Hgs Hobjs.
  assert (build (encode q1) = build (encode q2)) as Hbuild.
  { rewrite !build_encode, <- Hgs.
    destruct (Z.eqb_spec (req_grid_size q1) 0) as [|Hne]; [done|].
    unfold scan_request, fresh_grid. rewrite <- Hw, <- Hh, <- Hgs.
    rewrite !scan_objects_split by done.
    rewrite <- (mark_all_recognised _ (req_objects q1)).
    rewrite <- (mark_all_recognised _ (req_objects q2)).
    rewrite <- !(actor_recognised _ _ (req_objects q1)) by auto.
    rewrite <- !(actor_recognised _ _ (req_objects q2)) by auto.
    by rewrite Hobjs. }
  split; [done|]. unfold get_ai_move, get_ai_move_with. by rewrite Hbuild.
Qed.

Lemma unrecognised_objects_ignored_witness :
  let q1 := Request 64 64 32
    [WorldObject "coin" 640 0; WorldObject "ai_enemy" 32 0;
     WorldObject "Wall" 0 0; WorldObject "player" 0 32] in
  let q2 := Request 64 64 32
    [WorldObject "ai_enemy" 32 0; WorldObject "player" 0 32] in
  build (encode q1) = build (encode q2) ∧
  get_ai_move (encode q1) = get_ai_move (encode q2).
Proof.
  intros q1 q2.
  apply (unrecognised_objects_ignored q1 q2); vm_compute; reflexivity.
Defined.

(** X12: a "success" answer always names the corner of a tile that is
    next to the pursuer's tile along one axis, lies inside the grid and
    is not marked as a wall. *)
Theorem success_is_one_open_tile q x y :
  get_ai_move (encode q) = Success x y →
  ∃ g player ai n,
    scan_request q = Ok (g, Some player, Some ai) ∧
    adjacent ai n ∧ is_open g n ∧
    x = n.2 * req_grid_size q ∧ y = n.1 * req_grid_size q.
Proof.
  unfold get_ai_move, get_ai_move_with.
  destruct (build (encode q)) as [[gs' [[g pl] ai]]|] eqn:Hb; [|done].
  destruct (build_encode_Ok _ _ _ _ _ Hb) as (Hgs & -> & Hscan & _).
  cbn [mbind result_bind respond].
  destruct pl as [player|]; [|done]. destruct ai as [ai|]; [|done].
  pose proof (find_path_ok g ai player) as Hok.
  destruct (find_path g ai player) as [p| | |]; try done.
  destruct Hok as (Hw & _). destruct (1 <? len p); [|done].
  destruct (p !! 1%nat) as [[nr nc]|] eqn:Hn; [|done].
  intros [= <- <-]. exists g, player, ai, (nr, nc).
  pose proof (walk_head _ _ _ _ Hw) as Hhead. rewrite head_lookup in Hhead.
  split_and!; [done| | |done..].
  - by eapply (walk_chain g ai player p 0%nat).
  - by eapply (walk_open g ai player p 0%nat).
Qed.

Lemma success_is_one_open_tile_witness :
  let q := Request 640 480 32
             [WorldObject "ai_enemy" 160 160; WorldObject "player" 224 160] in
  ∃ g player ai n,
    scan_request q = Ok (g, Some player, Some ai) ∧
    adjacent ai n ∧ is_open g n ∧
    192 = n.2 * req_grid_size q ∧ 160 = n.1 * req_grid_size q.
Proof.
  intros q. apply (success_is_one_open_tile q 192 160). vm_compute. reflexivity.
Defined.

(** X13: once the set-up has found both actors, the answer is "success"
    exactly when the two stand in different cells and the target can be
    reached, and "no_move" exactly when they share a cell or the target
    cannot be reached. *)
Theorem answer_kinds q gs' g player ai :
  build (encode q) = Ok (gs', (g, Some player, Some ai)) →
  (status (get_ai_move (encode q)) = "success" ↔
     ai ≠ player ∧ reachable g ai player) ∧
  (status (get_ai_move (encode q)) = "no_move" ↔
     ai = player ∨ ¬ reachable g ai player).
Proof.
  intros Hb. destruct (build_encode_Ok _ _ _ _ _ Hb) as (Hgs & -> & Hscan & _).
  pose proof (scan_request_rectangular _ _ _ _ Hgs Hscan) as Hrect.
  unfold get_ai_move, get_ai_move_with. rewrite Hb.
  cbn [mbind result_bind respond].
  pose proof (find_path_ok g ai player) as Hok.
  destruct (find_path g ai player) as [p| |x|] eqn:Hfp.
  - destruct Hok as (Hw & _).
    assert (reachable g ai player) as Hreach by (by exists p).
    destruct (decide (ai = player)) as [->|Hne].
    + rewrite find_path_same_cell_eq in Hfp. injection Hfp as <-.
      simpl. split; split; try done; [by intros [? _]|by left].
    + assert (1 <? len p = true) as ->.
      { apply Z.ltb_lt. destruct Hw as [|u v p0 Hw0 _ _]; [done|].
        apply walk_length in Hw0. unfold len. rewrite length_app. simpl. lia. }
      destruct (lookup_lt_is_Some_2 p 1) as [[nr nc] ->].
      { destruct Hw as [|u v p0 Hw0 _ _]; [done|].
        apply walk_length in Hw0. rewrite length_app. simpl. lia. }
      simpl. split; split; try done. by intros [|].
  - simpl. split; split; try done; [by intros [_ ?]|].
    intros _. right. done.
  - by apply find_path_no_raise in Hfp.
  - by apply find_path_total in Hfp.
Qed.

Lemma answer_kinds_witness :
  let q := Request 96 32 32
    [WorldObject "ai_enemy" 0 0; WorldObject "wall" 32 0; WorldObject "player" 64 0] in
  (status (get_ai_move (encode q)) = "success" ↔
     (0, 0) ≠ (0, 2) ∧ reachable [[0; 1; 0]] (0, 0) (0, 2)) ∧
  (status (get_ai_move (encode q)) = "no_move" ↔
     (0, 0) = (0, 2) ∨ ¬ reachable [[0; 1; 0]] (0, 0) (0, 2)).
Proof.
  intros q. apply (answer_kinds q (PInt 32) [[0; 1; 0]] (0, 2) (0, 0)).
  vm_compute. reflexivity.
Defined.

(** X14: when the set-up has run to its end without raising and has
    found both actors, a "wall" or "enemy" object in the target's own
    cell cuts the target off: a pursuer in another cell is told to hold,
    at the corner of its own cell. *)
Theorem blocked_target_tile q gs' g player ai o :
  build (encode q) = Ok (gs', (g, Some player, Some ai)) →
  ai ≠ player → o ∈ req_objects q → blocks o = true →
  cell_of (req_grid_size q) o = player →
  get_ai_move (encode q)
  = NoMove (ai.2 * req_grid_size q) (ai.1 * req_grid_size q).
Proof.
  intros Hb Hne Hin Hblocks Hcell.
  destruct (build_encode_Ok _ _ _ _ _ Hb) as (Hgs & -> & Hscan & _).
  pose proof (scan_request_rectangular _ _ _ _ Hgs Hscan) as Hrect.
  assert (¬ is_open g player) as Hblocked.
  { intros (Hr & Hc & Hv).
    unfold scan_request in Hscan. rewrite scan_objects_split in Hscan by done.
    destruct (mark_all _ _ _) as [g1|] eqn:Hmarks; [|done].
    injection Hscan as -> _ _.
    pose proof (shape_fresh_grid q) as Hshape.
    pose proof (mark_all_shape _ _ _ _ _ _ Hshape Hmarks) as [Hlen Hrows].
    unfold cell_at in Hv.
    rewrite (mark_all_cells _ _ _ _ _ _ (Z.to_nat player.1) (Z.to_nat player.2)
               Hshape Hmarks) in Hv.
    assert (width_of g = Z.of_nat (Z.to_nat (req_width q / req_grid_size q))) as Hwd.
    { unfold width_of. destruct g as [|row0 g]; [simpl in Hr; unfold len in Hr; simpl in Hr; lia|].
      simpl. apply Forall_inv in Hrows. unfold len. by rewrite Hrows. }
    rewrite (proj2 (existsb_exists _ _)) in Hv; [done|].
    exists o. split; [by apply list_elem_of_In|].
    unfold marks. rewrite Hblocks, Hcell. cbn [andb].
    unfold len in Hr. rewrite Hlen in Hr. rewrite Hwd in Hc.
    unfold py_index.
    rewrite (proj2 (Z.leb_le 0 player.1)), (proj2 (Z.ltb_lt player.1 _)) by lia.
    rewrite (proj2 (Z.leb_le 0 player.2)), (proj2 (Z.ltb_lt player.2 _)) by lia.
    cbn [andb]. by rewrite !bool_decide_eq_true_2. }
  unfold get_ai_move, get_ai_move_with. rewrite Hb.
  cbn [mbind result_bind respond].
  rewrite (find_path_unreachable g ai player Hrect);
    [done|by apply blocked_unreachable].
Qed.

Lemma blocked_target_tile_witness :
  let q := Request 96 32 32
    [WorldObject "ai_enemy" 0 0; WorldObject "player" 64 0; WorldObject "enemy" 70 5] in
  get_ai_move (encode q) = NoMove (0 * 32) (0 * 32).
Proof.
  intros q.
  apply (blocked_target_tile q (PInt 32) [[0; 0; 1]] (0, 2) (0, 0)
           (WorldObject "enemy" 70 5)).
  - vm_compute. reflexivity.
  - discriminate.
  - set_solver.
  - reflexivity.
  - reflexivity.
Defined.

(** ** Level names *)

Section names.
Context `{CharClass}.

Lemma str_forall_app f a b :
  str_forall f (a +:+ b) = str_forall f a && str_forall f b.
Proof. induction a as [|c a IH]; [done|]. simpl. by rewrite IH, andb_assoc. Qed.

Lemma str_forall_has_char f a s :
  str_forall f s = true → has_char a s = true → f a = true.
Proof.
  induction s as [|c s IH]; [done|]. simpl.
  intros [Hc Hs]%andb_prop [Heq|Hin]%orb_prop; [|by apply IH].
  apply Ascii.eqb_eq in Heq. by subst.
Qed.

Lemma has_char_app a s t : has_char a (s +:+ t) = has_char a s || has_char a t.
Proof. induction s as [|c s IH]; [done|]. simpl. by rewrite IH, orb_assoc. Qed.

Lemma rstrip_forall f s : str_forall f s = true → str_forall f (rstrip s) = true.
Proof.
  induction s as [|c s IH]; [done|]. simpl. intros [Hc Hs]%andb_prop.
  specialize (IH Hs). destruct (rstrip s) as [|a t].
  - destruct (isspace_char c); [done|]. simpl. by rewrite Hc.
  - simpl in *. by rewrite Hc.
Qed.

Lemma rstrip_idemp s : rstrip (rstrip s) = rstrip s.
Proof.
  induction s as [|c s IH]; [done|]. simpl.
  destruct (rstrip s) as [|a t] eqn:Hs.
  - destruct (isspace_char c) eqn:Hc; [done|]. simpl. by rewrite Hc.
  - change (rstrip (String c (String a t))) with
      (match rstrip (String a t) with
       | EmptyString => if isspace_char c then EmptyString else String c EmptyString
       | t' => String c t'
       end).
    by rewrite IH.
Qed.

Lemma keep_chars_allowed s : str_forall allowed_char (keep_chars s) = true.
Proof.
  induction s as [|c s IH]; [done|]. simpl.
  destruct (isalnum_char c || _ || _ || _) eqn:Hc; [|done].
  simpl. unfold allowed_char at 1. by rewrite Hc.
Qed.

Lemma keep_chars_id s : str_forall allowed_char s = true → keep_chars s = s.
Proof.
  induction s as [|c s IH]; [done|]. simpl. intros [Hc Hs]%andb_prop.
  unfold allowed_char in Hc. rewrite Hc. by rewrite IH.
Qed.

Lemma sanitize_allowed s : str_forall allowed_char (sanitize s) = true.
Proof. apply rstrip_forall, keep_chars_allowed. Qed.

Lemma kept_allowed c b :
  kept c = Done b → b = true →
  ∃ t, c = PStr t ∧ str_forall allowed_char t = true.
Proof.
  destruct c as [| | |t| |]; try done. simpl. intros [= <-] Hb.
  exists t. split; [done|].
  apply orb_prop in Hb as [[[Ht|Ht]%orb_prop|Ht]%orb_prop|Ht].
  - unfold str_isalnum in Ht. apply andb_prop in Ht as [_ Ht].
    clear -Ht. induction t as [|c t IH]; [done|]. simpl in *.
    apply andb_prop in Ht as [Hc Ht]. unfold allowed_char at 1.
    by rewrite Hc, IH.
  - by apply String.eqb_eq in Ht as ->.
  - by apply String.eqb_eq in Ht as ->.
  - by apply String.eqb_eq in Ht as ->.
Qed.

Lemma join_kept_allowed items joined :
  join_kept items = Done joined → str_forall allowed_char joined = true.
Proof.
  revert joined. induction items as [|c items IH]; intros joined; simpl.
  - by intros [= <-].
  - destruct (kept c) as [b|] eqn:Hc; [|done]. simpl.
    destruct (join_kept items) as [tail|]; [|done]. simpl.
    intros [= <-]. specialize (IH tail eq_refl).
    destruct b; [|done].
    destruct (kept_allowed c true Hc eq_refl) as (t & -> & Ht).
    by rewrite str_forall_app, Ht, IH.
Qed.

Lemma join_kept_chars s :
  join_kept ((λ a, PStr (String a EmptyString)) <$> String.list_ascii_of_string s)
  = Done (keep_chars s).
Proof.
  induction s as [|c s IH]; [done|].
  cbn [String.list_ascii_of_string fmap list_fmap join_kept kept].
  change (list_fmap _ _ ?f ?l) with (f <$> l). rewrite IH.
  cbn [mbind attempt_bind keep_chars].
  assert (str_isalnum (String c EmptyString) = isalnum_char c) as ->.
  { unfold str_isalnum. simpl. by rewrite andb_true_r. }
  assert (∀ a, String.eqb (String c EmptyString) (String a EmptyString)
               = Ascii.eqb c a) as Heq.
  { intros a. simpl. by destruct (Ascii.eqb c a). }
  rewrite !Heq. by destruct (isalnum_char c || _ || _ || _).
Qed.

(** For a name that is a string the sanitising never fails. *)
Lemma safe_filename_str s : safe_filename (PStr s) = Done (sanitize s).
Proof. unfold safe_filename, sanitize. simpl. by rewrite join_kept_chars. Qed.

Lemma safe_filename_allowed name safe :
  safe_filename name = Done safe → str_forall allowed_char safe = true.
Proof.
  unfold safe_filename. destruct (py_iter name) as [items|]; [|done]. simpl.
  destruct (join_kept items) as [joined|] eqn:Hj; [|done]. simpl.
  intros [= <-]. by eapply rstrip_forall, join_kept_allowed.
Qed.

Lemma allowed_no_separator safe a :
  str_forall allowed_char safe = true → allowed_char a = false →
  has_char a safe = false.
Proof.
  intros Hall Ha. destruct (has_char a safe) eqn:Hin; [|done].
  by rewrite (str_forall_has_char _ _ _ Hall Hin) in Ha.
Qed.

(** X15: whatever name is sent, the file name made of it holds only
    letters, digits, spaces, "_" and "-"; it holds no "/", no "\", no "."
    and no NUL character. *)
Theorem safe_filename_chars name safe :
  safe_filename name = Done safe →
  (∀ c, has_char c safe = true → allowed_char c = true) ∧
  has_char "/"%char safe = false ∧ has_char "\"%char safe = false ∧
  has_char "."%char safe = false ∧ has_char "000"%char safe = false.
Proof.
  intros Hall%safe_filename_allowed. split_and!.
  - intros c Hc. by eapply str_forall_has_char.
  - by apply allowed_no_separator.
  - by apply allowed_no_separator.
  - by apply allowed_no_separator.
  - by apply allowed_no_separator.
Qed.
End names.

Lemma safe_filename_chars_witness :
  (∀ c, has_char c "etcpasswd" = true → @allowed_char plain_chars c = true) ∧
  has_char "/"%char "etcpasswd" = false ∧ has_char "\"%char "etcpasswd" = false ∧
  has_char "."%char "etcpasswd" = false ∧ has_char "000"%char "etcpasswd" = false.
Proof.
  apply (@safe_filename_chars plain_chars (PStr "../etc/passwd")).
  vm_compute. reflexivity.
Defined.

(** ** Paths and file names *)

Lemma has_char_false a c s : has_char a (String c s) = false → c ≠ a ∧ has_char a s = false.
Proof.
  simpl. intros [Hc Hs]%orb_false_elim. split; [|done].
  intros ->. by rewrite Ascii.eqb_refl in Hc.
Qed.

Lemma prefix_char_false a c s t : c ≠ a → String.prefix (String a t) (String c s) = false.
Proof. intros Hne. simpl. by destruct (ascii_dec a c) as [->|]. Qed.

Lemma append_cons c s t : String c s +:+ t = String c (s +:+ t).
Proof. done. Qed.

Lemma path_join_plain dir name :
  String.eqb dir "" || endswith dir "/" = false →
  has_char "/"%char name = false →
  path_join dir (name +:+ ".json") = dir +:+ "/" +:+ name +:+ ".json".
Proof.
  intros Hdir Hname. unfold path_join. rewrite Hdir.
  destruct name as [|c name]; [done|].
  apply has_char_false in Hname as [Hc _].
  rewrite append_cons. by rewrite prefix_char_false.
Qed.

Lemma parent_of_plain s : has_char "/"%char s = false → parent_of s = None.
Proof.
  induction s as [|c s IH]; [done|].
  intros [Hc Hs]%has_char_false. simpl. rewrite IH by done.
  destruct (Ascii.eqb_spec c "/"); done.
Qed.

Lemma parent_of_child dir name :
  has_char "/"%char name = false → parent_of (dir +:+ "/" +:+ name) = Some dir.
Proof.
  intros Hname. induction dir as [|c dir IH].
  - simpl. by rewrite parent_of_plain.
  - rewrite append_cons. cbn [parent_of]. by rewrite IH.
Qed.

Lemma strip_prefix_app pre s : strip_prefix pre (pre +:+ s) = Some s.
Proof. induction pre as [|c pre IH]; [done|]. simpl. by rewrite Ascii.eqb_refl. Qed.

Lemma child_name_child dir name :
  name ≠ "" → has_char "/"%char name = false →
  child_name dir (dir +:+ "/" +:+ name) = Some name.
Proof.
  intros Hne Hname. unfold child_name.
  replace (dir +:+ "/" +:+ name) with ((dir +:+ "/") +:+ name).
  - rewrite strip_prefix_app, Hname.
    by rewrite (proj2 (String.eqb_neq _ _) Hne).
  - induction dir as [|c dir IH]; [done|]. by rewrite !append_cons, IH.
Qed.

Lemma endswith_refl s : endswith s s = true.
Proof. destruct s; simpl; by rewrite ?String.eqb_refl, ?Ascii.eqb_refl. Qed.

Lemma endswith_app s suffix : endswith (s +:+ suffix) suffix = true.
Proof.
  induction s as [|c s IH]; [apply endswith_refl|].
  rewrite append_cons. cbn [endswith]. rewrite IH. apply orb_true_r.
Qed.

Lemma replace_extension name :
  has_char "."%char name = false → str_replace ".json" "" (name +:+ ".json") = name.
Proof.
  unfold str_replace. induction name as [|c name IH]; [done|].
  intros [Hc Hs]%has_char_false.
  rewrite append_cons. cbn [replace_from]. rewrite prefix_char_false by done.
  by rewrite IH.
Qed.

Lemma app_json_plain name a :
  a ≠ "."%char → a ≠ "j"%char → a ≠ "s"%char → a ≠ "o"%char → a ≠ "n"%char →
  has_char a name = false → has_char a (name +:+ ".json") = false.
Proof.
  intros. rewrite has_char_app. apply orb_false_intro; [done|].
  cbn [has_char].
  by rewrite !(proj2 (Ascii.eqb_neq _ _)) by congruence.
Qed.

(** ** Saving, listing and loading levels *)

Lemma strip_prefix_Some pre s t : strip_prefix pre s = Some t → s = pre +:+ t.
Proof.
  revert s. induction pre as [|a pre IH]; intros s; simpl.
  - by intros [= ->].
  - destruct s as [|b s]; [done|].
    destruct (Ascii.eqb_spec a b) as [->|]; [|done].
    intros ->%IH. by rewrite append_cons.
Qed.

Lemma append_assoc (s t u : string) : (s +:+ t) +:+ u = s +:+ t +:+ u.
Proof. induction s as [|c s IH]; [done|]. by rewrite !append_cons, IH. Qed.

Lemma child_name_Some dir path name :
  child_name dir path = Some name →
  path = dir +:+ "/" +:+ name ∧ name ≠ "" ∧ has_char "/"%char name = false.
Proof.
  unfold child_name. destruct (strip_prefix _ _) as [t|] eqn:Ht; [|done].
  apply strip_prefix_Some in Ht as ->.
  destruct (String.eqb_spec t "") as [->|Hne]; [done|].
  cbn [orb]. destruct (has_char _ t) eqn:Hs; [done|].
  intros [= <-]. by rewrite append_assoc.
Qed.

(** What one block of [get_levels] lists exists: each entry comes from a
    path directly under the directory, with a name that ends in ".json". *)
Lemma level_entries_sound dir kind files l e :
  level_entries dir kind files = Done l → e ∈ l →
  ∃ f, e = PDict [("name", PStr (str_replace ".json" "" f)); ("type", PStr kind)] ∧
       is_Some (files !! (dir +:+ "/" +:+ f)) ∧
       f ≠ "" ∧ has_char "/"%char f = false ∧ endswith f ".json" = true.
Proof.
  unfold level_entries, listdir. destruct (exists_path dir files); [|by intros [= <-] ?%elem_of_nil].
  destruct (files !! dir) as [[|c]|]; try done. simpl. intros [= <-].
  intros (name & -> & (f & -> & (Hjson & Hf)%list_elem_of_filter)%list_elem_of_fmap)%list_elem_of_fmap.
  apply list_elem_of_omap in Hf as (path & Hpath & (-> & Hne & Hslash)%child_name_Some).
  exists f. split_and!; [done| |done..].
  apply list_elem_of_fmap in Hpath as ([path' x] & -> & Hin%elem_of_map_to_list).
  by exists x.
Qed.

(** And it lists every such path. *)
Lemma level_entries_complete dir kind files f :
  files !! dir = Some Dir → is_Some (files !! (dir +:+ "/" +:+ f)) →
  f ≠ "" → has_char "/"%char f = false → endswith f ".json" = true →
  ∃ l, level_entries dir kind files = Done l ∧
       PDict [("name", PStr (str_replace ".json" "" f)); ("type", PStr kind)] ∈ l.
Proof.
  intros Hdir [x Hx] Hne Hslash Hjson. unfold level_entries, listdir, exists_path.
  rewrite Hdir, bool_decide_eq_true_2 by done. simpl. eexists. split; [done|].
  apply list_elem_of_fmap. exists (str_replace ".json" "" f). split; [done|].
  apply list_elem_of_fmap. exists f. split; [done|].
  apply list_elem_of_filter. split; [done|].
  apply list_elem_of_omap. exists (dir +:+ "/" +:+ f). split.
  - apply list_elem_of_fmap. exists (dir +:+ "/" +:+ f, x). split; [done|].
    by apply elem_of_map_to_list.
  - by apply child_name_child.
Qed.

Lemma level_entries_done dir kind files :
  (∀ c, files !! dir ≠ Some (File c)) → ∃ l, level_entries dir kind files = Done l.
Proof.
  intros Hdir. unfold level_entries, listdir, exists_path.
  destruct (files !! dir) as [[|c]|] eqn:Hd.
  - rewrite bool_decide_eq_true_2 by done. simpl. by eexists.
  - by destruct (Hdir c).
  - rewrite bool_decide_eq_false_2 by (by intros [? ?]). by eexists.
Qed.

Lemma get_levels_done files :
  (∀ c, files !! LEVELS_DIR ≠ Some (File c)) →
  (∀ c, files !! DEFAULT_LEVELS_DIR ≠ Some (File c)) →
  ∃ user dflt,
    level_entries LEVELS_DIR "user" files = Done user ∧
    level_entries DEFAULT_LEVELS_DIR "default" files = Done dflt ∧
    get_levels files = Done (Reply (PList (user ++ dflt)) 200).
Proof.
  intros Hu Hd. unfold get_levels.
  destruct (level_entries_done LEVELS_DIR "user" files Hu) as [user Huser].
  destruct (level_entries_done DEFAULT_LEVELS_DIR "default" files Hd) as [dflt Hdflt].
  exists user, dflt. by rewrite Huser, Hdflt.
Qed.

(** X16: when neither of the two directories is an ordinary file,
    [get_levels] answers 200 with a list, and every entry of the list
    comes from a path [<dir>/<f>] that exists, with [<dir>] the directory
    of the entry's type and [<f>] a file name that is not empty, holds no
    "/" (the path lies directly in the directory) and ends in ".json";
    the listed name is [<f>] with every ".json" taken out. *)
Theorem get_levels_sound files :
  (∀ c, files !! LEVELS_DIR ≠ Some (File c)) →
  (∀ c, files !! DEFAULT_LEVELS_DIR ≠ Some (File c)) →
  ∃ l, get_levels files = Done (Reply (PList l) 200) ∧
    ∀ e, e ∈ l →
      ∃ f kind dir,
        e = PDict [("name", PStr (str_replace ".json" "" f)); ("type", PStr kind)] ∧
        (kind = "user" ∧ dir = LEVELS_DIR ∨ kind = "default" ∧ dir = DEFAULT_LEVELS_DIR) ∧
        is_Some (files !! (dir +:+ "/" +:+ f)) ∧
        f ≠ "" ∧ has_char "/"%char f = false ∧ endswith f ".json" = true.
Proof.
  intros Hu Hd.
  destruct (get_levels_done files Hu Hd) as (user & dflt & Huser & Hdflt & ->).
  eexists. split; [done|].
  intros e [He|He]%elem_of_app.
  - destruct (level_entries_sound _ _ _ _ _ Huser He) as (f & -> & Hf & Hrest).
    exists f, "user", LEVELS_DIR. auto.
  - destruct (level_entries_sound _ _ _ _ _ Hdflt He) as (f & -> & Hf & Hrest).
    exists f, "default", DEFAULT_LEVELS_DIR. auto.
Qed.

Lemma get_levels_sound_witness :
  ∃ l, get_levels (<["levels/a.json" := File None]> (<["levels" := Dir]> ∅))
       = Done (Reply (PList l) 200) ∧
    ∀ e, e ∈ l →
      ∃ f kind dir,
        e = PDict [("name", PStr (str_replace ".json" "" f)); ("type", PStr kind)] ∧
        (kind = "user" ∧ dir = LEVELS_DIR ∨ kind = "default" ∧ dir = DEFAULT_LEVELS_DIR) ∧
        is_Some ((<["levels/a.json" := File None]> (<["levels" := Dir]> ∅) : gmap string entry)
                   !! (dir +:+ "/" +:+ f)) ∧
        f ≠ "" ∧ has_char "/"%char f = false ∧ endswith f ".json" = true.
Proof.
  apply (get_levels_sound (<["levels/a.json" := File None]> (<["levels" := Dir]> ∅))).
  - intros c. vm_compute. discriminate.
  - intros c. vm_compute. discriminate.
Defined.

Lemma level_entries_fail dir kind files c :
  files !! dir = Some (File c) → level_entries dir kind files = Fail OSError.
Proof.
  intros Hdir. unfold level_entries, listdir, exists_path.
  by rewrite Hdir, bool_decide_eq_true_2.
Qed.

(** X17: [get_levels] raises exactly when one of the two directories is
    there as something other than a directory. *)
Theorem get_levels_raises files :
  (∃ e, get_levels files = Fail e) ↔
  (∃ c, files !! LEVELS_DIR = Some (File c)) ∨
  (∃ c, files !! DEFAULT_LEVELS_DIR = Some (File c)).
Proof.
  split.
  - intros [e He].
    destruct (files !! LEVELS_DIR) as [[|c]|] eqn:Hu; [|left; by exists c|];
      (destruct (files !! DEFAULT_LEVELS_DIR) as [[|c]|] eqn:Hd; [|right; by exists c|]);
      (destruct (get_levels_done files) as (user & dflt & _ & _ & Hl);
        [intros ?; congruence..|congruence]).
  - unfold get_levels. intros [[c Hc]|[c Hc]].
    + rewrite (level_entries_fail _ _ _ _ Hc). by eexists.
    + rewrite (level_entries_fail _ "default" _ _ Hc).
      destruct (level_entries LEVELS_DIR _ _); by eexists.
Qed.


Section levels.
Context `{CharClass} `{Platform}.

Lemma safe_path safe :
  str_forall allowed_char safe = true →
  path_join LEVELS_DIR (safe +:+ ".json") = "levels/" +:+ safe +:+ ".json" ∧
  has_char "/"%char safe = false ∧ has_char "."%char safe = false.
Proof.
  intros Hall.
  assert (has_char "/"%char safe = false) as Hslash
    by (by apply allowed_no_separator).
  split_and!; [|done|by apply allowed_no_separator].
  by rewrite path_join_plain.
Qed.

Lemma sanitize_idemp s : sanitize (sanitize s) = sanitize s.
Proof.
  unfold sanitize at 1. rewrite keep_chars_id by apply sanitize_allowed.
  unfold sanitize. apply rstrip_idemp.
Qed.

(** What a save that answers 200 has done. *)
Lemma save_level_saved level_data files files' r :
  save_level level_data files = (files', r) → reply_code r = 200 →
  ∃ d name data safe,
    level_data = PDict d ∧
    name = default PNone (dict_get d "name") ∧
    PList data = default PNone (dict_get d "data") ∧
    safe_filename name = Done safe ∧
    let files1 := if exists_path LEVELS_DIR files then files
                  else <[LEVELS_DIR := Dir]> files in
    is_dir LEVELS_DIR files1 = true ∧
    creatable ("levels/" +:+ safe +:+ ".json") = true ∧
    files' = <["levels/" +:+ safe +:+ ".json" := File (Some (PList data))]> files1 ∧
    r = saved_reply safe.
Proof.
  unfold save_level. destruct level_data as [| | | | |d]; simpl;
    try (by intros [= <- <-]).
  destruct (negb (truthy _) || negb (is_list _)) eqn:Hvalid;
    [by intros [= <- <-]|].
  apply orb_false_elim in Hvalid as [_ Hlist].
  destruct (default PNone (dict_get d "data")) as [| | | |data|] eqn:Hdata; try done.
  destruct (safe_filename _) as [safe|] eqn:Hsafe; [|by intros [= <- <-]].
  destruct (safe_path safe (safe_filename_allowed _ _ Hsafe)) as (Hpath & Hslash & _).
  rewrite Hpath.
  destruct (writable _ _) eqn:Hw; [|by intros [= <- <-]].
  intros [= <- <-] _. exists d, (default PNone (dict_get d "name")), data, safe.
  unfold writable in Hw. apply andb_prop in Hw as [[Hos Hw]%andb_prop _].
  split_and!; try done.
  change ("levels/" +:+ safe +:+ ".json") with (LEVELS_DIR +:+ "/" +:+ safe +:+ ".json") in Hw.
  rewrite parent_of_child in Hw; [done|].
  apply app_json_plain; done.
Qed.

(** X18: a level saved under a name that is a string is found again by
    loading, with any type other than "default", that name or any name
    with the same sanitised form: the answer is the saved data. *)
Theorem save_then_load d n n' data files files' r level_type :
  dict_get d "name" = Some (PStr n) → dict_get d "data" = Some data →
  save_level (PDict d) files = (files', r) → reply_code r = 200 →
  level_type ≠ "default" → sanitize n' = sanitize n →
  load_level level_type n' files' = Reply data 200.
Proof.
  intros Hn Hd Hsave Hcode Hty Hsame.
  destruct (save_level_saved _ _ _ _ Hsave Hcode)
    as (d' & name & data' & safe & [= <-] & -> & Hdata & Hsafe & _ & _ & -> & _).
  rewrite Hn in Hsafe. simpl in Hsafe. rewrite safe_filename_str in Hsafe.
  injection Hsafe as <-. rewrite Hd in Hdata. simpl in Hdata. subst data.
  unfold load_level. rewrite safe_filename_str, Hsame.
  rewrite (proj2 (String.eqb_neq _ _) Hty).
  destruct (safe_path _ (sanitize_allowed n)) as (-> & _).
  unfold exists_path, read_json. rewrite lookup_insert_eq.
  by rewrite bool_decide_eq_true_2.
Qed.

(** X19: loading by the sanitised form of a name gives what loading by
    the name itself gives. *)
Theorem load_level_sanitized level_type n files :
  load_level level_type (sanitize n) files = load_level level_type n files.
Proof.
  unfold load_level. by rewrite !safe_filename_str, sanitize_idemp.
Qed.

(** X20: the answer of [load_level] depends on nothing but what lies
    under the one path [<dir>/<sanitised name>.json], with [<dir>] the
    default directory for the type "default" and the user directory for
    every other type; when nothing lies there the answer is 404. *)
Theorem load_level_one_path level_type n files :
  (∀ files', files' !! level_path level_type n = files !! level_path level_type n →
     load_level level_type n files' = load_level level_type n files) ∧
  (files !! level_path level_type n = None →
     load_level level_type n files = error_reply "Level not found." 404).
Proof.
  assert (∀ dir, String.eqb dir "" || endswith dir "/" = false →
            path_join dir (sanitize n +:+ ".json")
            = dir +:+ "/" +:+ sanitize n +:+ ".json") as Hjoin.
  { intros dir Hdir. apply path_join_plain; [done|].
    apply allowed_no_separator; [|done]. apply sanitize_allowed. }
  unfold load_level, level_path.
  rewrite safe_filename_str, Hjoin by (by destruct (String.eqb level_type _)).
  set (path := _ +:+ "/" +:+ sanitize n +:+ ".json").
  unfold exists_path, read_json. split.
  - intros files' ->. done.
  - intros ->. by rewrite bool_decide_eq_false_2 by (by intros [? ?]).
Qed.

Lemma levels_dir_insert (files : gmap string entry) :
  (∀ c, files !! LEVELS_DIR ≠ Some (File c)) →
  (if exists_path LEVELS_DIR files then files else <[LEVELS_DIR := Dir]> files)
  = <[LEVELS_DIR := Dir]> files.
Proof.
  intros Hdir. unfold exists_path.
  destruct (files !! LEVELS_DIR) as [[|c]|] eqn:Hl.
  - rewrite bool_decide_eq_true_2 by done. by rewrite insert_id.
  - by destruct (Hdir c).
  - by rewrite bool_decide_eq_false_2 by (by intros [? ?]).
Qed.

Lemma level_path_user level_type n :
  level_type ≠ "default" → level_path level_type n = "levels/" +:+ sanitize n +:+ ".json".
Proof. intros Hty. unfold level_path. by rewrite (proj2 (String.eqb_neq _ _) Hty). Qed.

(** X21: a save succeeds whenever the name is a non-empty string, the
    data is a list, [levels] is absent or a directory, the path of the
    level is not a directory and the operating system does not refuse
    that path (as it does for a file name over its length limit): the
    directory is there afterwards, the data lies under
    [levels/<sanitised name>.json], and the answer names the sanitised
    name.  The sanitised name may be empty. *)
Theorem save_level_succeeds d n data files :
  dict_get d "name" = Some (PStr n) → n ≠ "" →
  dict_get d "data" = Some (PList data) →
  (∀ c, files !! LEVELS_DIR ≠ Some (File c)) →
  files !! level_path "user" n ≠ Some Dir →
  creatable (level_path "user" n) = true →
  save_level (PDict d) files
  = (<[level_path "user" n := File (Some (PList data))]> (<[LEVELS_DIR := Dir]> files),
     saved_reply (sanitize n)).
Proof.
  intros Hn Hne Hd Hdir Hpath Hos. unfold save_level. simpl.
  rewrite Hn, Hd. simpl. rewrite (proj2 (String.eqb_neq _ _) Hne). simpl.
  rewrite safe_filename_str, levels_dir_insert by done.
  destruct (safe_path _ (sanitize_allowed n)) as (-> & Hslash & _).
  rewrite level_path_user in * by done.
  unfold writable. rewrite Hos. cbn [andb].
  change ("levels/" +:+ sanitize n +:+ ".json")
    with (LEVELS_DIR +:+ "/" +:+ sanitize n +:+ ".json") at 1.
  rewrite parent_of_child by (by apply app_json_plain).
  unfold is_dir at 1. rewrite lookup_insert_eq.
  unfold is_dir. rewrite lookup_insert_ne by done.
  by destruct (files !! ("levels/" +:+ _)) as [[|c]|].
Qed.

(** A path the operating system refuses, such as one with a file name
    over its length limit, ends in the [except] clause: the answer is
    500 and no file is written. *)
Lemma save_level_refused d n data files :
  dict_get d "name" = Some (PStr n) → n ≠ "" →
  dict_get d "data" = Some (PList data) →
  creatable (level_path "user" n) = false →
  save_level (PDict d) files
  = (if exists_path LEVELS_DIR files then files else <[LEVELS_DIR := Dir]> files,
     error_reply "An internal error occurred." 500).
Proof.
  intros Hn Hne Hd Hos. unfold save_level. simpl.
  rewrite Hn, Hd. simpl. rewrite (proj2 (String.eqb_neq _ _) Hne). simpl.
  rewrite safe_filename_str.
  destruct (safe_path _ (sanitize_allowed n)) as (-> & _).
  rewrite level_path_user in Hos by done.
  unfold writable. by rewrite Hos.
Qed.

(** X22: [save_level] changes the file system at two places at most: it
    may create the directory [levels] where nothing was, and, only when
    it answers 200, it puts a list under [levels/<name>.json] for a
    [<name>] that holds no "/" and no ".".  Everything else, and
    everything when the answer is not 200 apart from the directory, is
    as it was. *)
Theorem save_level_confined level_data files files' r p :
  save_level level_data files = (files', r) →
  files' !! p ≠ files !! p →
  p = LEVELS_DIR ∧ files !! p = None ∧ files' !! p = Some Dir ∨
  reply_code r = 200 ∧
  ∃ safe data, p = "levels/" +:+ safe +:+ ".json" ∧
    has_char "/"%char safe = false ∧ has_char "."%char safe = false ∧
    files' !! p = Some (File (Some (PList data))).
Proof.
  intros Hsave Hp.
  assert (∀ files1 : gmap string entry,
            files1 = (if exists_path LEVELS_DIR files then files
                      else <[LEVELS_DIR := Dir]> files) →
            files1 !! p ≠ files !! p →
            p = LEVELS_DIR ∧ files !! p = None ∧ files1 !! p = Some Dir) as Hmk.
  { intros files1 -> Hne. unfold exists_path in Hne |- *.
    destruct (decide (is_Some (files !! LEVELS_DIR))) as [Hl|Hl].
    - by rewrite bool_decide_eq_true_2 in Hne by done.
    - rewrite bool_decide_eq_false_2 in Hne |- * by done.
      destruct (decide (p = LEVELS_DIR)) as [->|Hpl].
      + rewrite lookup_insert_eq. split_and!; [done| |done].
        by apply eq_None_not_Some.
      + by rewrite lookup_insert_ne in Hne by done. }
  revert Hsave. unfold save_level.
  destruct level_data as [| | | | |d]; simpl; try (by intros [= <- <-]).
  destruct (negb (truthy _) || negb (is_list _)) eqn:Hvalid;
    [by intros [= <- <-]|].
  apply orb_false_elim in Hvalid as [_ Hlist].
  destruct (default PNone (dict_get d "data")) as [| | | |data|] eqn:Hdata; try done.
  destruct (safe_filename _) as [safe|] eqn:Hsafe;
    [|intros [= <- <-]; left; by apply Hmk].
  destruct (safe_path safe (safe_filename_allowed _ _ Hsafe)) as (-> & Hslash & Hdot).
  destruct (writable _ _); [|intros [= <- <-]; left; by apply Hmk].
  intros [= <- <-].
  destruct (decide (p = "levels/" +:+ safe +:+ ".json")) as [->|Hne].
  - right. split; [done|]. exists safe, data. by rewrite lookup_insert_eq.
  - left. rewrite lookup_insert_ne in Hp |- * by done. by apply Hmk.
Qed.

(** X23: after a successful save under a name that is a string, the
    listing holds the sanitised name with type "user", provided
    [default_levels] is absent or a directory. *)
Theorem save_then_listed d n files files' r :
  dict_get d "name" = Some (PStr n) →
  save_level (PDict d) files = (files', r) → reply_code r = 200 →
  (∀ c, files !! DEFAULT_LEVELS_DIR ≠ Some (File c)) →
  ∃ l, get_levels files' = Done (Reply (PList l) 200) ∧
       PDict [("name", PStr (sanitize n)); ("type", PStr "user")] ∈ l.
Proof.
  intros Hn Hsave Hcode Hdflt.
  destruct (save_level_saved _ _ _ _ Hsave Hcode)
    as (d' & name & data & safe & [= <-] & -> & _ & Hsafe & Hdir & _ & -> & _).
  rewrite Hn in Hsafe. simpl in Hsafe. rewrite safe_filename_str in Hsafe.
  injection Hsafe as <-. simpl in Hdir.
  set (files1 := if exists_path LEVELS_DIR files then files
                 else <[LEVELS_DIR := Dir]> files) in *.
  set (files' := <[_ := _]> files1).
  destruct (safe_path _ (sanitize_allowed n)) as (_ & Hslash & Hdot).
  destruct (level_entries_complete LEVELS_DIR "user" files' (sanitize n +:+ ".json"))
    as (user & Huser & Hin).
  - unfold files'. rewrite lookup_insert_ne by done.
    unfold is_dir in Hdir. by destruct (files1 !! LEVELS_DIR) as [[|c]|].
  - unfold files'. change (LEVELS_DIR +:+ "/" +:+ sanitize n +:+ ".json")
      with ("levels/" +:+ sanitize n +:+ ".json"). by rewrite lookup_insert_eq.
  - by destruct (sanitize n).
  - by apply app_json_plain.
  - apply endswith_app.
  - rewrite replace_extension in Hin by done.
    destruct (level_entries_done DEFAULT_LEVELS_DIR "default" files') as [dflt Hd].
    + intros c. unfold files', files1. rewrite lookup_insert_ne by done.
      destruct (exists_path LEVELS_DIR files); [done|].
      by rewrite lookup_insert_ne by done.
    + unfold get_levels. rewrite Huser. simpl. rewrite Hd. simpl.
      eexists. split; [done|]. apply elem_of_app. by left.
Qed.
End levels.

Lemma save_then_load_witness :
  @load_level plain_chars "user" "mylevel!"
    (<["levels/mylevel.json" := File (Some (PList [PInt 1]))]> (<["levels" := Dir]> ∅))
  = Reply (PList [PInt 1]) 200.
Proof.
  apply (@save_then_load plain_chars short_paths
           [("name", PStr "my/level"); ("data", PList [PInt 1])]
           "my/level" "mylevel!" (PList [PInt 1]) ∅ _ (@saved_reply "mylevel") "user").
  - reflexivity.
  - reflexivity.
  - vm_compute. reflexivity.
  - reflexivity.
  - discriminate.
  - vm_compute. reflexivity.
Defined.

Lemma load_level_one_path_witness :
  @load_level plain_chars "default" "maze_runner" ∅
  = error_reply "Level not found." 404.
Proof.
  apply (proj2 (@load_level_one_path plain_chars "default" "maze_runner" ∅)).
  reflexivity.
Defined.

Lemma save_level_succeeds_witness :
  @save_level plain_chars short_paths (PDict [("name", PStr "??"); ("data", PList [])]) ∅
  = (<[@level_path plain_chars "user" "??" := File (Some (PList []))]>
       (<[LEVELS_DIR := Dir]> ∅),
     saved_reply (@sanitize plain_chars "??")).
Proof.
  apply (@save_level_succeeds plain_chars short_paths
           [("name", PStr "??"); ("data", PList [])] "??" [] ∅).
  - reflexivity.
  - discriminate.
  - reflexivity.
  - intros c. vm_compute. discriminate.
  - vm_compute. discriminate.
  - vm_compute. reflexivity.
Defined.

Lemma save_level_confined_witness :
  "levels" = LEVELS_DIR ∧ (∅ : gmap string entry) !! "levels" = None ∧
  (<["levels" := Dir]> ∅ : gmap string entry) !! "levels" = Some Dir ∨
  reply_code (error_reply "An internal error occurred." 500) = 200 ∧
  ∃ safe data, "levels" = "levels/" +:+ safe +:+ ".json" ∧
    has_char "/"%char safe = false ∧ has_char "."%char safe = false ∧
    (<["levels" := Dir]> ∅ : gmap string entry) !! "levels"
    = Some (File (Some (PList data))).
Proof.
  apply (@save_level_confined plain_chars short_paths
           (PDict [("name", PInt 7); ("data", PList [])]) ∅).
  - vm_compute. reflexivity.
  - vm_compute. discriminate.
Defined.

Lemma save_then_listed_witness :
  ∃ l, get_levels (<["levels/my level.json" := File (Some (PList [PInt 1]))]>
                     (<["levels" := Dir]> ∅))
       = Done (Reply (PList l) 200) ∧
       PDict [("name", PStr (@sanitize plain_chars "my level!")); ("type", PStr "user")] ∈ l.
Proof.
  apply (@save_then_listed plain_chars short_paths
           [("name", PStr "my level!"); ("data", PList [PInt 1])]
           "my level!" ∅ _ (@saved_reply "my level")).
  - reflexivity.
  - vm_compute. reflexivity.
  - reflexivity.
  - intros c. vm_compute. discriminate.
Defined.

Lemma get_levels_raises_witness :
  ∃ e, get_levels (<["levels" := File None]> ∅) = Fail e.
Proof.
  apply (proj2 (get_levels_raises (<["levels" := File None]> ∅))).
  left. exists None. vm_compute. reflexivity.
Defined.
